(** * traceHandle: the gesture-driven particle tree

    A shallow embedding of [ParticleTree] (the particle field: generator,
    state transitions, per-frame animator), of [GestureController] (the
    event emitter and the gesture classifier) and of the wiring that
    [main.js] installs between the two.

    Conventions of the embedding.
    - A JavaScript number is a real number: rounding to binary64 (and to
      binary32 on a store into a [Float32Array]) is abstracted away, and
      so are NaN and the infinities.  Where the source would produce NaN
      or throw a [TypeError] the model returns [None].
    - [Math.random] is a cursor into an arbitrary infinite sequence of
      draws; every function that draws threads the cursor.
    - A [Float32Array] is a [list R] of fixed length.  A store outside
      the array is dropped, as typed arrays do; this is what stdpp's list
      insert does.
    - Rendering objects (shader material, scene graph, dirty flags,
      [uPixelRatio]) carry no state that the methods below read back;
      only the [rotation.y] of the [THREE.Points] object and its null
      test are kept.  [initAurora] is never called and is left out, and
      so is the start-up of camera and model in [initialize]. *)

From Stdlib Require Import Reals Lra Lia.
From Stdlib Require Floats.
From stdpp Require Import base option list strings gmap.

Open Scope R_scope.

(** ** The [Math] object *)

Definition Math_PI : R := PI.
Definition Math_cos : R -> R := cos.
Definition Math_sin : R -> R := sin.
Definition Math_acos : R -> R := acos.
Definition Math_abs : R -> R := Rabs.
Definition Math_sqrt : R -> R := sqrt.
Definition Math_pow (b : R) (e : nat) : R := b ^ e.

(** [Math.cbrt]: the real cube root, odd in its argument. *)
Definition Math_cbrt (v : R) : R :=
  if Rlt_dec 0 v then Rpower v (/ 3)
  else if Rlt_dec v 0 then - Rpower (- v) (/ 3)
  else 0.

(** ** [Math.random] as a threaded source of draws *)

Record RNG : Type := mkRNG { draws : nat -> R; cursor : nat }.

(** The contract of [Math.random]: every draw lies in [0, 1). *)
Definition unit_draws (g : RNG) : Prop := forall k : nat, 0 <= draws g k < 1.

Definition Rand (A : Type) : Type := RNG -> A * RNG.

Definition ret {A} (a : A) : Rand A := fun g => (a, g).

Definition bind {A B} (c : Rand A) (k : A -> Rand B) : Rand B :=
  fun g => let (a, g') := c g in k a g'.

Notation "'let*' x ':=' c 'in' k" := (bind c (fun x => k))
  (at level 10, x name, c at level 100, k at level 200).

Definition Math_random : Rand R :=
  fun g => (draws g (cursor g), mkRNG (draws g) (S (cursor g))).

(** [for (let i = from; i < from + n; i++) s = body(i, s)], drawing. *)
Fixpoint for_rand {S : Type} (n from : nat) (body : nat -> S -> Rand S) (s : S)
  : Rand S :=
  match n with
  | O => ret s
  | Datatypes.S n' =>
      let* s' := body from s in for_rand n' (Datatypes.S from) body s'
  end.

(** ** Typed arrays *)

Abbreviation Float32Array := (list R).

(** [new Float32Array(n)]: [n] zeros. *)
Definition new_Float32Array (n : nat) : Float32Array := replicate n 0.

(** [a[3i] = x; a[3i+1] = y; a[3i+2] = z]. *)
Definition store3 (a : Float32Array) (i : nat) (x y z : R) : Float32Array :=
  <[(i * 3 + 2)%nat := z]> (<[(i * 3 + 1)%nat := y]> (<[(i * 3)%nat := x]> a)).

(** ** Data of the particle field *)

Inductive Region : Type := trunk | root | leaves.

Inductive FieldState : Type := formed | dispersed.

(** The object literal [{ x, y, z, type }] of [getBanyanPosition]. *)
Record BanyanPoint : Type := mkBanyan
  { bx : R; by_ : R; bz : R; type : Region }.

(** The object literal [{ x, y, z }] of [getDispersedPosition], and
    [THREE.Vector3]. *)
Record Vec3 : Type := mkVec3 { vx : R; vy : R; vz : R }.

(** [THREE.Color]. *)
Record Color : Type := mkColor { c_r : R; c_g : R; c_b : R }.

(** One entry of [meteorData]. *)
Record Meteor : Type := mkMeteor
  { pos : Vec3; velocity : Vec3; length_ : R; color : Color }.

(** A [THREE.Object3D] ([Points], [LineSegments]); only [rotation.y] is
    ever touched. *)
Record Object3D : Type := mkObject3D { rotation_y : R }.

Record ParticleTree : Type := mkTree
  { treeCount : nat;
    meteorCount : nat;
    treePositions : Float32Array;
    treeTargetPositions : Float32Array;
    treeColors : Float32Array;
    treeSizes : Float32Array;
    treeOpacities : Float32Array;
    state : FieldState;
    rotationSpeed : R;
    uTime : R;
    particles : option Object3D;
    meteors : option Object3D;
    meteorData : list Meteor;
    meteorPositions : Float32Array;
    meteorColors : Float32Array }.

Definition set_treePositions (t : ParticleTree) (v : Float32Array) :=
  mkTree (treeCount t) (meteorCount t) v (treeTargetPositions t)
    (treeColors t) (treeSizes t) (treeOpacities t) (state t)
    (rotationSpeed t) (uTime t) (particles t) (meteors t) (meteorData t)
    (meteorPositions t) (meteorColors t).

Definition set_treeTargetPositions (t : ParticleTree) (v : Float32Array) :=
  mkTree (treeCount t) (meteorCount t) (treePositions t) v
    (treeColors t) (treeSizes t) (treeOpacities t) (state t)
    (rotationSpeed t) (uTime t) (particles t) (meteors t) (meteorData t)
    (meteorPositions t) (meteorColors t).

Definition set_appearance (t : ParticleTree) (c s o : Float32Array) :=
  mkTree (treeCount t) (meteorCount t) (treePositions t)
    (treeTargetPositions t) c s o (state t)
    (rotationSpeed t) (uTime t) (particles t) (meteors t) (meteorData t)
    (meteorPositions t) (meteorColors t).

Definition set_state (t : ParticleTree) (v : FieldState) :=
  mkTree (treeCount t) (meteorCount t) (treePositions t)
    (treeTargetPositions t) (treeColors t) (treeSizes t) (treeOpacities t) v
    (rotationSpeed t) (uTime t) (particles t) (meteors t) (meteorData t)
    (meteorPositions t) (meteorColors t).

Definition set_rotationSpeed (t : ParticleTree) (v : R) :=
  mkTree (treeCount t) (meteorCount t) (treePositions t)
    (treeTargetPositions t) (treeColors t) (treeSizes t) (treeOpacities t)
    (state t) v (uTime t) (particles t) (meteors t) (meteorData t)
    (meteorPositions t) (meteorColors t).

Definition set_uTime (t : ParticleTree) (v : R) :=
  mkTree (treeCount t) (meteorCount t) (treePositions t)
    (treeTargetPositions t) (treeColors t) (treeSizes t) (treeOpacities t)
    (state t) (rotationSpeed t) v (particles t) (meteors t) (meteorData t)
    (meteorPositions t) (meteorColors t).

Definition set_particles (t : ParticleTree) (v : option Object3D) :=
  mkTree (treeCount t) (meteorCount t) (treePositions t)
    (treeTargetPositions t) (treeColors t) (treeSizes t) (treeOpacities t)
    (state t) (rotationSpeed t) (uTime t) v (meteors t) (meteorData t)
    (meteorPositions t) (meteorColors t).

Definition set_meteors (t : ParticleTree) (v : option Object3D)
    (d : list Meteor) (p c : Float32Array) :=
  mkTree (treeCount t) (meteorCount t) (treePositions t)
    (treeTargetPositions t) (treeColors t) (treeSizes t) (treeOpacities t)
    (state t) (rotationSpeed t) (uTime t) (particles t) v d p c.

(** ** [ParticleTree]

    [THREE.Color.setHex] and [THREE.Color.setHSL] belong to three.js; the
    colour they compute is a parameter of the development. *)

Section ParticleTree.

Variable Color_setHex : Z -> Color.
Variable Color_setHSL : R -> R -> R -> Color.

(** [new THREE.Color()] is white. *)
Definition new_Color : Color := mkColor 1 1 1.

Definition getBanyanPosition (t : ParticleTree) (i : nat) : Rand BanyanPoint :=
  let* r := Math_random in
  if Rlt_dec (INR i) (INR (treeCount t) * 0.25) then
    let height := 4.0 in
    let* u := Math_random in
    let y := (u * height) - (height / 2) - 1.0 in
    let progress := (y + (height / 2) + 1.0) / height in
    let* u := Math_random in
    let radius := 0.3 + (1.0 - progress) * 1.5 + (u * 0.05) in
    let* u := Math_random in
    let angle := u * Math_PI * 2 in
    let x := Math_cos angle * radius in
    let z := Math_sin angle * radius in
    ret (mkBanyan x y z trunk)
  else if Rlt_dec (INR i) (INR (treeCount t) * 0.35) then
    let dropHeight := 3.0 in
    let* u := Math_random in
    let y := (u * dropHeight) - 2.0 in
    let* u := Math_random in
    let radius := 1.2 + u * 2.5 in
    let* u := Math_random in
    let angle := u * Math_PI * 2 in
    let x := Math_cos angle * radius in
    let z := Math_sin angle * radius in
    ret (mkBanyan x y z root)
  else
    let* u := Math_random in
    let theta := u * Math_PI * 2 in
    let* u := Math_random in
    let phi := Math_acos (2 * u - 1) in
    let* u := Math_random in
    let r_sphere := 3.5 + u * 0.5 in
    let x := r_sphere * Math_sin phi * Math_cos theta in
    let y := r_sphere * Math_sin phi * Math_sin theta in
    let z := r_sphere * Math_cos phi in
    let y := Math_abs y * 0.6 + 0.5 in
    let x := x * 1.5 in
    let z := z * 1.5 in
    ret (mkBanyan x y z leaves).

Definition getDispersedPosition : Rand Vec3 :=
  let* u := Math_random in
  let r := 10 * Math_cbrt u in
  let* u := Math_random in
  let theta := u * 2 * Math_PI in
  let* u := Math_random in
  let phi := Math_acos (2 * u - 1) in
  ret (mkVec3 (r * Math_sin phi * Math_cos theta)
              (r * Math_sin phi * Math_sin theta)
              (r * Math_cos phi)).

(** [resetMeteor(data, randomStart)] overwrites every field of [data]
    ([pos], [velocity], [length], [color]); the object it returns is
    determined by the draws alone. *)
Definition resetMeteor (randomStart : bool) : Rand Meteor :=
  let* u := Math_random in
  let x := if randomStart then u * 40 - 20 else 20 + u * 10 in
  let* u := Math_random in
  let y := u * 20 - 10 in
  let* u := Math_random in
  let z := u * 10 - 20 in
  let* u1 := Math_random in
  let* u2 := Math_random in
  let* u3 := Math_random in
  let* r := Math_random in
  ret (mkMeteor (mkVec3 x y z)
                (mkVec3 (- 0.3 - u1 * 0.3) (- 0.05 - u2 * 0.1) 0)
                (3.0 + u3 * 6.0)
                (if Rlt_dec 0.5 r then Color_setHex 16777215 (* 0xffffff *)
                 else Color_setHex 11393254 (* 0xadd8e6 *))).

(** The colour, size and opacity that one iteration of [initParticles]
    assigns.  [color] is the single [THREE.Color] object of the loop;
    each of the three regions sets it anew, as it does the defaults
    [size = 1.0] and [opacity = 1.0]. *)
Definition appearance (ty : Region) (color : Color) : Rand (Color * R * R) :=
  match ty with
  | trunk =>
      let* r := Math_random in
      if Rlt_dec 0.97 r then
        ret (Color_setHSL 0.08 0.7 0.6, 2.5, 0.9)
      else
        let* u1 := Math_random in
        let* u2 := Math_random in
        ret (Color_setHSL 0.06 0.4 (0.15 + (u1 * 0.25)), 0.8 + u2 * 0.5, 0.9)
  | root =>
      let* u := Math_random in
      ret (Color_setHSL 0.08 0.3 (0.35 + u * 0.15), 0.7, 0.7)
  | leaves =>
      let* r := Math_random in
      if Rlt_dec 0.85 r then
        ret (Color_setHex 16777215, 2.0, 1.0)
      else if Rlt_dec 0.65 r then
        let* u := Math_random in
        ret (Color_setHSL 0.89 1.0 0.85, 1.5 + u * 0.5, 0.95)
      else if Rlt_dec 0.35 r then
        let* u := Math_random in
        ret (Color_setHSL 0.86 0.9 0.75, 1.3 + u * 0.5, 0.9)
      else
        let* u := Math_random in
        ret (Color_setHSL 0.81 0.8 0.70, 1.2 + u, 0.85)
  end.

(** The body of the loop of [initParticles]; the loop state is the tree
    and the shared [color] object. *)
Definition initParticles_body (i : nat) (s : ParticleTree * Color)
  : Rand (ParticleTree * Color) :=
  let (t, color) := s in
  let* p := getBanyanPosition t i in
  let t := set_treePositions t
             (store3 (treePositions t) i (bx p) (by_ p) (bz p)) in
  let t := set_treeTargetPositions t
             (store3 (treeTargetPositions t) i (bx p) (by_ p) (bz p)) in
  let* a := appearance (type p) color in
  let '(color, size, opacity) := a in
  let t := set_appearance t
             (store3 (treeColors t) i (c_r color) (c_g color) (c_b color))
             (<[i := size]> (treeSizes t))
             (<[i := opacity]> (treeOpacities t)) in
  ret (t, color).

Definition initParticles (t : ParticleTree) : Rand ParticleTree :=
  let* s := for_rand (treeCount t) 0 initParticles_body (t, new_Color) in
  ret (set_particles (fst s) (Some (mkObject3D 0))).

Definition initMeteors_body (i : nat) (d : list Meteor) : Rand (list Meteor) :=
  let* m := resetMeteor true in ret (d ++ [m]).

Definition initMeteors (t : ParticleTree) : Rand ParticleTree :=
  let positions := new_Float32Array (meteorCount t * 2 * 3) in
  let colors := new_Float32Array (meteorCount t * 2 * 3) in
  let* d := for_rand (meteorCount t) 0 initMeteors_body [] in
  ret (set_meteors t (Some (mkObject3D 0)) d positions colors).

(** [new ParticleTree(scene)]. *)
Definition constructor_ : Rand ParticleTree :=
  let treeCount := Z.to_nat 20000 in
  let meteorCount := 100%nat in
  let t := mkTree treeCount meteorCount
             (new_Float32Array (treeCount * 3))
             (new_Float32Array (treeCount * 3))
             (new_Float32Array (treeCount * 3))
             (new_Float32Array treeCount)
             (new_Float32Array treeCount)
             formed 0 0 None None [] [] [] in
  let* t := initParticles t in
  initMeteors t.

Definition form_body (i : nat) (t : ParticleTree) : Rand ParticleTree :=
  let* p := getBanyanPosition t i in
  ret (set_treeTargetPositions t
         (store3 (treeTargetPositions t) i (bx p) (by_ p) (bz p))).

Definition form (t : ParticleTree) : Rand ParticleTree :=
  match state t with
  | formed => ret t
  | dispersed =>
      let t := set_state t formed in
      for_rand (treeCount t) 0 form_body t
  end.

Definition disperse_body (i : nat) (t : ParticleTree) : Rand ParticleTree :=
  let* p := getDispersedPosition in
  ret (set_treeTargetPositions t
         (store3 (treeTargetPositions t) i (vx p) (vy p) (vz p))).

Definition disperse (t : ParticleTree) : Rand ParticleTree :=
  match state t with
  | dispersed => ret t
  | formed =>
      let t := set_state t dispersed in
      for_rand (treeCount t) 0 disperse_body t
  end.

Definition rotate (normalizedX : R) (t : ParticleTree) : ParticleTree :=
  let speed := (normalizedX - 0.5) * 0.1 in
  set_rotationSpeed t speed.

(** The first loop of [update]:
    [positions[i] += (treeTargetPositions[i] - positions[i]) * 0.06].
    [positions] is [treeGeometry.attributes.position.array], the very
    array [treePositions].  A read outside either array is [undefined]
    and would put NaN into play: [None]. *)
Fixpoint blend_loop (n from : nat) (positions targets : Float32Array)
  : option Float32Array :=
  match n with
  | O => Some positions
  | S n' =>
      p ← positions !! from;
      q ← targets !! from;
      blend_loop n' (S from) (<[from := p + (q - p) * 0.06]> positions) targets
  end.

(** One iteration of the meteor loop of [update] on
    [(meteorData, positions, colors)].  [meteorData[i]] missing makes
    [data.pos] throw: [None].  [store3 a (i * 2)] writes the head,
    [a[6i .. 6i+2]]; [store3 a (i * 2 + 1)] the tail, [a[6i+3 .. 6i+5]]. *)
Definition updateMeteors_body (i : nat)
    (s : list Meteor * Float32Array * Float32Array) (g : RNG)
  : option (list Meteor * Float32Array * Float32Array * RNG) :=
  let '(d, positions, colors) := s in
  data ← d !! i;
  let v := velocity data in
  let p := mkVec3 (vx (pos data) + vx v) (vy (pos data) + vy v)
                  (vz (pos data) + vz v) in
  let data := mkMeteor p v (length_ data) (color data) in
  let positions := store3 positions (i * 2) (vx p) (vy p) (vz p) in
  let positions := store3 positions (i * 2 + 1)
                     (vx p - vx v * length_ data)
                     (vy p - vy v * length_ data)
                     (vz p - vz v * length_ data) in
  let colors := store3 colors (i * 2)
                  (c_r (color data)) (c_g (color data)) (c_b (color data)) in
  let colors := store3 colors (i * 2 + 1) 0 0 0 in
  let (data, g) := if Rlt_dec (vx p) (- 30) then resetMeteor false g
                   else (data, g) in
  Some (<[i := data]> d, positions, colors, g).

Fixpoint updateMeteors_loop (n from : nat)
    (s : list Meteor * Float32Array * Float32Array) (g : RNG)
  : option (list Meteor * Float32Array * Float32Array * RNG) :=
  match n with
  | O => Some (s, g)
  | S n' =>
      '(s', g') ← updateMeteors_body from s g;
      updateMeteors_loop n' (S from) s' g'
  end.

Definition update (t : ParticleTree) (g : RNG) : option (ParticleTree * RNG) :=
  let t := set_uTime t (uTime t + 0.01) in
  positions ← blend_loop (treeCount t * 3) 0
                (treePositions t) (treeTargetPositions t);
  let t := set_treePositions t positions in
  let t := match particles t with
           | Some o =>
               let t := set_particles t
                          (Some (mkObject3D (rotation_y o + rotationSpeed t))) in
               set_rotationSpeed t (rotationSpeed t * 0.96)
           | None => t
           end in
  match meteors t with
  | Some _ =>
      '(d, positions, colors, g') ←
        updateMeteors_loop (meteorCount t) 0
          (meteorData t, meteorPositions t, meteorColors t) g;
      Some (set_meteors t (meteors t) d positions colors, g')
  | None => Some (t, g)
  end.

(** [n] animation frames in a row. *)
Fixpoint updates (n : nat) (t : ParticleTree) (g : RNG)
  : option (ParticleTree * RNG) :=
  match n with
  | O => Some (t, g)
  | S n' => '(t', g') ← update t g; updates n' t' g'
  end.

(** *** What the statements below observe *)

(** The shape every tree has once constructed: both position buffers
    hold three coordinates per particle, [particles] is set, and
    [meteorData] has one entry per meteor. *)
Definition well_formed (t : ParticleTree) : Prop :=
  length (treePositions t) = (treeCount t * 3)%nat /\
  length (treeTargetPositions t) = (treeCount t * 3)%nat /\
  length (meteorData t) = meteorCount t /\
  is_Some (particles t).

(** The trees the page can hold: the constructed one, and whatever the
    four methods make of it. *)
Inductive reachable : ParticleTree -> Prop :=
| reach_new (g : RNG) : reachable (fst (constructor_ g))
| reach_form t g : reachable t -> reachable (fst (form t g))
| reach_disperse t g : reachable t -> reachable (fst (disperse t g))
| reach_rotate x t : reachable t -> reachable (rotate x t)
| reach_update t g t' g' :
    reachable t -> update t g = Some (t', g') -> reachable t'.

(** The same without [disperse], starting from [t0]. *)
Inductive undispersed (t0 : ParticleTree) : ParticleTree -> Prop :=
| calm_start : undispersed t0 t0
| calm_form t g : undispersed t0 t -> undispersed t0 (fst (form t g))
| calm_rotate x t : undispersed t0 t -> undispersed t0 (rotate x t)
| calm_update t g t' g' :
    undispersed t0 t -> update t g = Some (t', g') -> undispersed t0 t'.

(** Colours, sizes and opacities of [t'] are those of [t]. *)
Definition same_appearance (t t' : ParticleTree) : Prop :=
  treeColors t' = treeColors t /\
  treeSizes t' = treeSizes t /\
  treeOpacities t' = treeOpacities t.

(** What the first loop of the constructor keeps: the sizes, the state,
    and the equality of the two position buffers. *)
Definition init_invariant (N : nat) (t : ParticleTree) : Prop :=
  treeCount t = N /\
  length (treePositions t) = (N * 3)%nat /\
  treePositions t = treeTargetPositions t /\
  state t = formed /\
  rotationSpeed t = 0.

(** Coordinate [k] of the current-position buffer after [n] frames. *)
Definition coordinate_after (n : nat) (t : ParticleTree) (g : RNG) (k : nat)
  : option R :=
  '(t', _) ← updates n t g; treePositions t' !! k.

(** The rotation velocity after [n] frames. *)
Definition speed_after (n : nat) (t : ParticleTree) (g : RNG) : option R :=
  '(t', _) ← updates n t g; Some (rotationSpeed t').

(** [particles.rotation.y]. *)
Definition orientation (t : ParticleTree) : option R :=
  rotation_y <$> particles t.

End ParticleTree.

(** ** [GestureController]

    The callbacks are closures over the rest of the page; [W] is the
    state they act on.  A callback that throws, or puts NaN into that
    state, returns [None]. *)

(** What [emit] hands to a callback: [wrist.x] for ['move'], nothing
    ([undefined]) for ['fist'] and ['open']. *)
Inductive JSValue : Type := undefined | number (v : R).

Section GestureController.

Context {W : Type}.

Definition Callback : Type := JSValue -> W -> option W.

(** [listeners] is an object used as a map from event name to the array
    of callbacks; only its own keys are modelled. *)
Record GestureController : Type := mkController
  { lastVideoTime : R;
    listeners : gmap string (list Callback) }.

(** [new GestureController(videoElement)]. *)
Definition new_GestureController : GestureController :=
  mkController (- 1)
    (<["fist" := []]> (<["open" := []]> (<["move" := []]> ∅))).

Definition on (event : string) (callback : Callback) (gc : GestureController)
  : GestureController :=
  match listeners gc !! event with
  | Some cbs =>
      mkController (lastVideoTime gc)
        (<[event := cbs ++ [callback]]> (listeners gc))
  | None => gc
  end.

(** [cbs.forEach(cb => cb(data))]. *)
Fixpoint forEach (cbs : list Callback) (data : JSValue) (w : W) : option W :=
  match cbs with
  | [] => Some w
  | cb :: cbs' => w' ← cb data w; forEach cbs' data w'
  end.

Definition emit (event : string) (data : JSValue) (gc : GestureController)
    (w : W) : option W :=
  match listeners gc !! event with
  | Some cbs => forEach cbs data w
  | None => Some w
  end.

(** The distance of one fingertip to the wrist. *)
Definition tip_distance (tip wrist : Vec3) : R :=
  Math_sqrt (Math_pow (vx tip - vx wrist) 2 +
             Math_pow (vy tip - vy wrist) 2 +
             Math_pow (vz tip - vz wrist) 2).

(** [avgDist] of [processGestures]. *)
Definition avgDist (wrist : Vec3) (tips : list Vec3) : R :=
  foldl (fun totalDist tip => totalDist + tip_distance tip wrist) 0 tips / 4.

(** [landmarks[i]] missing is [undefined], and reading its [x] throws. *)
Definition processGestures (landmarks : list Vec3) (gc : GestureController)
    (w : W) : option W :=
  wrist ← landmarks !! 0%nat;
  tips ← mapM (fun i : nat => landmarks !! i) [8; 12; 16; 20]%nat;
  let avgDist := avgDist wrist tips in
  w ← (if Rlt_dec avgDist 0.2 then emit "fist" undefined gc w
       else if Rlt_dec 0.3 avgDist then emit "open" undefined gc w
       else Some w);
  emit "move" (number (vx wrist)) gc w.

(** One run of [predictWebcam].  [currentTime] is [video.currentTime];
    [results] is what [handLandmarker.detectForVideo] returns for the
    frame, one landmark list per detected hand. *)
Definition predictWebcam (currentTime : R) (results : list (list Vec3))
    (gc : GestureController) (w : W) : option (GestureController * W) :=
  if Req_dec_T (lastVideoTime gc) currentTime then Some (gc, w)
  else
    let gc := mkController currentTime (listeners gc) in
    match results with
    | hand :: _ => w ← processGestures hand gc w; Some (gc, w)
    | [] => Some (gc, w)
    end.

End GestureController.

Arguments GestureController : clear implicits.
Arguments Callback : clear implicits.

(** ** The wiring of [main.js]

    The page state the three callbacks act on: [sceneManager.tree] and
    the draws of [Math.random]. *)

Definition Page : Type := (ParticleTree * RNG)%type.

(** [() => sceneManager.tree.form()]. *)
Definition fist_listener : Callback Page :=
  fun _ w => Some (form (fst w) (snd w)).

(** [() => sceneManager.tree.disperse()]. *)
Definition open_listener : Callback Page :=
  fun _ w => Some (disperse (fst w) (snd w)).

(** [(x) => sceneManager.tree.rotate(x)]; without an argument the speed
    would become NaN. *)
Definition move_listener : Callback Page :=
  fun data w =>
    match data with
    | number x => Some (rotate x (fst w), snd w)
    | undefined => None
    end.

(** The three [gestureController.on] calls. *)
Definition connect (gc : GestureController Page) : GestureController Page :=
  on "move" move_listener (on "open" open_listener (on "fist" fist_listener gc)).

(** ** Observing the emitter

    A listener that appends the event it receives to a trace; registered
    on all three events it shows what [emit] delivers, and in what
    order. *)

Abbreviation Trace := (list (string * JSValue)).

Definition recorder (event : string) : Callback Trace :=
  fun data tr => Some (tr ++ [(event, data)]).

Definition record_all (gc : GestureController Trace) : GestureController Trace :=
  on "move" (recorder "move")
    (on "open" (recorder "open") (on "fist" (recorder "fist") gc)).

(** The four fingertips [processGestures] looks at. *)
Definition fingertips (landmarks : list Vec3) : list Vec3 :=
  omap (fun i : nat => landmarks !! i) [8; 12; 16; 20]%nat.

(** ** Concrete inputs *)

Definition halves : RNG := mkRNG (fun _ => 0.5) 0.

Definition grey_hex : Z -> Color := fun _ => mkColor 0.5 0.5 0.5.
Definition grey_hsl : R -> R -> R -> Color := fun _ _ l => mkColor l l l.

(** A field of one particle at the origin, heading for (10, 10, 10). *)
Definition one_particle : ParticleTree :=
  mkTree 1 0 [0; 0; 0] [10; 10; 10] [1; 1; 1] [1] [1] formed 0 0
    (Some (mkObject3D 0)) (Some (mkObject3D 0)) [] [] [].

(** A hand of 21 landmarks, all at the same point. *)
Definition still_hand (x : R) : list Vec3 := replicate 21 (mkVec3 x 0 0).

(** ** What the further statements observe *)

(** The controllers a page can hold: a new one, with listeners
    registered on it and frames gone by. *)
Inductive registered {W : Type} : GestureController W -> Prop :=
| registered_new : registered new_GestureController
| registered_on event cb gc : registered gc -> registered (on event cb gc)
| registered_frame time gc :
    registered gc -> registered (mkController time (listeners gc)).

(** The trees the page can hold when [Math.random] keeps its contract:
    as [reachable], with every draw in [0, 1). *)
Inductive fairly_reachable (hex : Z -> Color) (hsl : R -> R -> R -> Color)
  : ParticleTree -> Prop :=
| fair_new g : unit_draws g -> fairly_reachable hex hsl (fst (constructor_ hex hsl g))
| fair_form t g :
    fairly_reachable hex hsl t -> unit_draws g ->
    fairly_reachable hex hsl (fst (form t g))
| fair_disperse t g :
    fairly_reachable hex hsl t -> unit_draws g ->
    fairly_reachable hex hsl (fst (disperse t g))
| fair_rotate x t :
    fairly_reachable hex hsl t -> fairly_reachable hex hsl (rotate x t)
| fair_update t g t' g' :
    fairly_reachable hex hsl t -> unit_draws g ->
    update hex t g = Some (t', g') -> fairly_reachable hex hsl t'.

(** Every entry of a buffer lies in [[-b, b]]. *)
Definition within (b : R) (a : Float32Array) : Prop :=
  Forall (fun v => - b <= v <= b) a.

(** The distance of a generated point from the vertical axis. *)
Definition horizontal (p : BanyanPoint) : R :=
  Math_sqrt (bx p * bx p + bz p * bz p).

(** A meteor as [resetMeteor] makes it and [update] keeps it: between
    the exit at -30 and the right edge of the spawn range, behind the
    tree, flying left and down.  The bounds are closed: a draw next to 1
    reaches them once the sum is rounded to binary64. *)
Definition in_flight (m : Meteor) : Prop :=
  -30 <= vx (pos m) <= 30 /\
  -20 <= vz (pos m) <= -10 /\
  -0.6 <= vx (velocity m) <= -0.3 /\
  -0.15 <= vy (velocity m) <= -0.05 /\
  vz (velocity m) = 0 /\
  3 <= length_ m <= 9.

(** [data.pos.add(data.velocity)]. *)
Definition advanced (m : Meteor) : Meteor :=
  mkMeteor (mkVec3 (vx (pos m) + vx (velocity m))
                   (vy (pos m) + vy (velocity m))
                   (vz (pos m) + vz (velocity m)))
           (velocity m) (length_ m) (color m).

(** The six entries of the position buffer that draw a meteor: head,
    then tail. *)
Definition segment (a : Meteor) : list R :=
  [ vx (pos a); vy (pos a); vz (pos a);
    vx (pos a) - vx (velocity a) * length_ a;
    vy (pos a) - vy (velocity a) * length_ a;
    vz (pos a) - vz (velocity a) * length_ a ].

(** The six entries of the colour buffer: the meteor's colour at the
    head, black at the tail. *)
Definition segment_colours (a : Meteor) : list R :=
  [ c_r (color a); c_g (color a); c_b (color a); 0; 0; 0 ].

(** The sizes of the five tree arrays, for [N] particles. *)
Definition tree_sized (N : nat) (t : ParticleTree) : Prop :=
  treeCount t = N /\
  length (treePositions t) = (N * 3)%nat /\
  length (treeTargetPositions t) = (N * 3)%nat /\
  length (treeColors t) = (N * 3)%nat /\
  length (treeSizes t) = N /\
  length (treeOpacities t) = N.

(** The size of every array of the tree. *)
Definition full_shape (t : ParticleTree) : Prop :=
  treeCount t = Z.to_nat 20000 /\
  meteorCount t = 100%nat /\
  length (treePositions t) = (treeCount t * 3)%nat /\
  length (treeTargetPositions t) = (treeCount t * 3)%nat /\
  length (treeColors t) = (treeCount t * 3)%nat /\
  length (treeSizes t) = treeCount t /\
  length (treeOpacities t) = treeCount t /\
  length (meteorData t) = meteorCount t /\
  length (meteorPositions t) = (meteorCount t * 6)%nat /\
  length (meteorColors t) = (meteorCount t * 6)%nat.

(** The size and opacity that [initParticles] computes for a particle
    of each region, before the store into the [Float32Array]. *)
Definition dressed (ty : Region) (size opacity : R) : Prop :=
  match ty with
  | trunk => opacity = 0.9 /\ (size = 2.5 \/ 0.8 <= size < 1.3)
  | root => size = 0.7 /\ opacity = 0.7
  | leaves => 1.2 <= size < 2.2 /\ 0.85 <= opacity <= 1
  end.

(** What rounding may add to a bound: a binary64 operation is off by
    less than one part in [10 ^ 15], a store into a [Float32Array] by
    less than one part in [10 ^ 7]. *)
Definition rounding : R := 1 / 1000000.

(** [dressed], up to [rounding]. *)
Definition roughly_dressed (ty : Region) (size opacity : R) : Prop :=
  match ty with
  | trunk =>
      Rabs (opacity - 0.9) <= rounding /\
      (Rabs (size - 2.5) <= rounding \/
       0.8 - rounding <= size <= 1.3 + rounding)
  | root => Rabs (size - 0.7) <= rounding /\ Rabs (opacity - 0.7) <= rounding
  | leaves =>
      1.2 - rounding <= size <= 2.2 + rounding /\
      0.85 - rounding <= opacity <= 1
  end.

(** The names every object inherits from [Object.prototype].  Under one
    of them [this.listeners[event]] is a function or an object, not
    [undefined], and [on] and [emit] throw; [listeners] as a map of its
    own keys says nothing about them. *)
Definition Object_prototype_names : list string :=
  [ "constructor"; "hasOwnProperty"; "isPrototypeOf"; "propertyIsEnumerable";
    "toLocaleString"; "toString"; "valueOf"; "__proto__";
    "__defineGetter__"; "__defineSetter__";
    "__lookupGetter__"; "__lookupSetter__" ].

(** The region of particle [i] among the 20000 of the constructor. *)
Definition region_of (i : nat) : Region :=
  if (Z.of_nat i <? 5000)%Z then trunk
  else if (Z.of_nat i <? 7000)%Z then root
  else leaves.

(** A landmark moved by [d]. *)
Definition shift (d p : Vec3) : Vec3 :=
  mkVec3 (vx p + vx d) (vy p + vy d) (vz p + vz d).

(** ** The same arithmetic in IEEE 754

    The three places where a claim names concrete numbers, once more in
    the arithmetic the browser runs: binary64 for every operation, and
    rounding to binary32 on the store into the [Float32Array]. *)

Module Binary64.

Import ZArith PrimFloat FloatOps SpecFloat.
#[local] Set Warnings "-inexact-float".
Local Open Scope float_scope.

(** [Math.fround]: what a store into a [Float32Array] keeps. *)
Definition fround (v : float) : float :=
  match Prim2SF v with
  | S754_finite s m e =>
      SF2Prim (binary_normalize 24 128 (if s then Z.neg m else Z.pos m) e s)
  | _ => v
  end.

(** The bounds [treeCount * 0.25] and [treeCount * 0.35] of
    [getBanyanPosition], at the [treeCount] of the constructor. *)
Definition trunk_bound : float := 20000 * 0.25.
Definition root_bound : float := 20000 * 0.35.

(** [speed] of [rotate]. *)
Definition speed (normalizedX : float) : float := (normalizedX - 0.5) * 0.1.

(** One iteration of the first loop of [update], on one coordinate. *)
Definition blend (p q : float) : float := fround (p + (q - p) * 0.06).

(** The coordinate after [n] frames. *)
Fixpoint frames (n : nat) (p q : float) : float :=
  match n with
  | O => p
  | S n' => frames n' (blend p q) q
  end.

(** Over the next [n] frames the coordinate never decreases and never
    exceeds [q]. *)
Fixpoint rising (n : nat) (p q : float) : bool :=
  match n with
  | O => true
  | S n' => (p <=? blend p q) && (blend p q <=? q) && rising n' (blend p q) q
  end.

End Binary64.

(** * Properties *)

(** ** Drawing *)

Lemma for_rand_S {S : Type} n from (body : nat -> S -> Rand S) s g :
  for_rand (Datatypes.S n) from body s g =
  for_rand n (Datatypes.S from) body (fst (body from s g)) (snd (body from s g)).
Proof. simpl. unfold bind. destruct (body from s g); reflexivity. Qed.

(** Invariants of a drawing loop: [P i s g] holds on entry to iteration
    [i]. *)
Lemma for_rand_invariant {S : Type} (P : nat -> S -> RNG -> Prop)
    (body : nat -> S -> Rand S) n :
  forall from s g,
    (forall i s g, (from <= i < from + n)%nat -> P i s g ->
       P (Datatypes.S i) (fst (body i s g)) (snd (body i s g))) ->
    P from s g ->
    P (from + n)%nat (fst (for_rand n from body s g))
                     (snd (for_rand n from body s g)).
Proof.
  induction n as [|n IH]; intros from s g Hstep H0.
  - rewrite Nat.add_0_r. exact H0.
  - rewrite for_rand_S.
    replace (from + Datatypes.S n)%nat with (Datatypes.S from + n)%nat by lia.
    apply IH.
    + intros i s' g' Hi. apply Hstep. lia.
    + apply Hstep; [lia | exact H0].
Qed.

(** ** The generator *)

(** The tag is decided by the index alone, whatever is drawn. *)
Lemma banyan_type t i g :
  type (fst (getBanyanPosition t i g)) =
  if Rlt_dec (INR i) (INR (treeCount t) * 0.25) then trunk
  else if Rlt_dec (INR i) (INR (treeCount t) * 0.35) then root
  else leaves.
Proof.
  unfold getBanyanPosition, bind, Math_random, ret.
  destruct (Rlt_dec (INR i) (INR (treeCount t) * 0.25)); [reflexivity|].
  destruct (Rlt_dec (INR i) (INR (treeCount t) * 0.35)); reflexivity.
Qed.

(** Every branch of the generator draws four times. *)
Lemma banyan_draws t i g :
  snd (getBanyanPosition t i g) = mkRNG (draws g) (cursor g + 4).
Proof.
  unfold getBanyanPosition, bind, Math_random, ret.
  replace (cursor g + 4)%nat with (S (S (S (S (cursor g))))) by lia.
  destruct (Rlt_dec (INR i) (INR (treeCount t) * 0.25)); [reflexivity|].
  destruct (Rlt_dec (INR i) (INR (treeCount t) * 0.35)); reflexivity.
Qed.

(** The generator reads nothing of the tree but [treeCount]. *)
Lemma banyan_treeCount t t' i :
  treeCount t = treeCount t' -> getBanyanPosition t i = getBanyanPosition t' i.
Proof. intros E. unfold getBanyanPosition. rewrite E. reflexivity. Qed.

(** The same in whole numbers: below a quarter of the particles the
    trunk, below seven twentieths the roots. *)
Lemma banyan_type_by_count t i g :
  type (fst (getBanyanPosition t i g)) =
  if (4 * i <? treeCount t)%nat then trunk
  else if (20 * i <? 7 * treeCount t)%nat then root
  else leaves.
Proof.
  rewrite banyan_type.
  assert (H4 : INR (4 * i) = 4 * INR i) by (rewrite mult_INR; cbn; lra).
  assert (H20 : INR (20 * i) = 20 * INR i) by (rewrite mult_INR; cbn; lra).
  assert (H7 : INR (7 * treeCount t) = 7 * INR (treeCount t))
    by (rewrite mult_INR; cbn; lra).
  destruct (Nat.ltb_spec (4 * i) (treeCount t)) as [L1|L1].
  { apply lt_INR in L1. destruct (Rlt_dec _ _); [reflexivity | lra]. }
  apply le_INR in L1. destruct (Rlt_dec _ _); [lra|].
  destruct (Nat.ltb_spec (20 * i) (7 * treeCount t)) as [L2|L2].
  { apply lt_INR in L2. destruct (Rlt_dec _ _); [reflexivity | lra]. }
  apply le_INR in L2. destruct (Rlt_dec _ _); [lra | reflexivity].
Qed.

(** At the 20000 particles of the constructor: particles 0 .. 4999 are
    trunk, 5000 .. 6999 roots, 7000 .. 19999 leaves. *)
Lemma banyan_type_of_20000 t i g :
  treeCount t = Z.to_nat 20000 ->
  type (fst (getBanyanPosition t i g)) =
  if (Z.of_nat i <? 5000)%Z then trunk
  else if (Z.of_nat i <? 7000)%Z then root
  else leaves.
Proof.
  intros HN. rewrite banyan_type_by_count, HN.
  destruct (Nat.ltb_spec (4 * i) (Z.to_nat 20000));
    destruct (Nat.ltb_spec (20 * i) (7 * Z.to_nat 20000));
    destruct (Z.ltb_spec (Z.of_nat i) 5000);
    destruct (Z.ltb_spec (Z.of_nat i) 7000); try reflexivity; lia.
Qed.

(** C1. For every index [i] and every state of the random source, the
    region tag that [getBanyanPosition] returns is fixed by the band of
    [i]: ['trunk'] below [0.25 N], ['root'] from [0.25 N] up to but
    excluding [0.35 N], ['leaves'] from there on, with [N = treeCount]. *)
Theorem banyan_region_by_band (t : ParticleTree) (i : nat) (g : RNG) :
  let ty := type (fst (getBanyanPosition t i g)) in
  let N := INR (treeCount t) in
  (INR i < 0.25 * N -> ty = trunk) /\
  (0.25 * N <= INR i < 0.35 * N -> ty = root) /\
  (0.35 * N <= INR i -> ty = leaves) /\
  (forall g' : RNG, type (fst (getBanyanPosition t i g')) = ty).
Proof.
  intros ty N. subst ty N.
  pose proof (pos_INR (treeCount t)) as HN.
  split_and!; try intros g'; rewrite !banyan_type;
    destruct (Rlt_dec (INR i) (INR (treeCount t) * 0.25)) as [H1|H1];
    try destruct (Rlt_dec (INR i) (INR (treeCount t) * 0.35)) as [H2|H2];
    intros; solve [reflexivity | lra].
Qed.

(** ** Stores into a typed array *)

Lemma store3_length a i x y z : length (store3 a i x y z) = length a.
Proof. unfold store3. rewrite !length_insert. reflexivity. Qed.

Lemma store3_lookup a i x y z :
  (i * 3 + 2 < length a)%nat ->
  store3 a i x y z !! (i * 3)%nat = Some x /\
  store3 a i x y z !! (i * 3 + 1)%nat = Some y /\
  store3 a i x y z !! (i * 3 + 2)%nat = Some z.
Proof.
  intros H. unfold store3. split_and!.
  - rewrite list_lookup_insert_ne by lia.
    rewrite list_lookup_insert_ne by lia.
    apply list_lookup_insert_eq. lia.
  - rewrite list_lookup_insert_ne by lia.
    apply list_lookup_insert_eq. rewrite length_insert. lia.
  - apply list_lookup_insert_eq. rewrite !length_insert. lia.
Qed.

Lemma store3_lookup_other a i x y z k :
  (k < i * 3 \/ i * 3 + 3 <= k)%nat -> store3 a i x y z !! k = a !! k.
Proof.
  intros H. unfold store3. rewrite !list_lookup_insert_ne by lia. reflexivity.
Qed.

(** ** Setters *)

(** Reduce the record projections and setters, and nothing of the
    arithmetic. *)
Ltac tree_simpl :=
  cbn [treeCount meteorCount treePositions treeTargetPositions treeColors
       treeSizes treeOpacities state rotationSpeed uTime particles meteors
       meteorData meteorPositions meteorColors set_uTime set_treePositions
       set_treeTargetPositions set_appearance set_state set_particles
       set_rotationSpeed set_meteors rotation_y fst snd
       mbind option_bind fmap option_fmap option_map] in *.

Lemma set_targets_same t : set_treeTargetPositions t (treeTargetPositions t) = t.
Proof. destruct t; reflexivity. Qed.

Lemma set_targets_twice t v v' :
  set_treeTargetPositions (set_treeTargetPositions t v) v' =
  set_treeTargetPositions t v'.
Proof. reflexivity. Qed.

(** ** A loop that stores one generated point per index

    [form] and [disperse] share the shape of their loop: iteration [i]
    draws [d] times and stores the three coordinates it computes at
    [3i], [3i+1], [3i+2] of the target buffer. *)
Section Fill.

Variables (X Y Z : ParticleTree -> nat -> RNG -> R) (d : nat).
Variable body : nat -> ParticleTree -> Rand ParticleTree.

Hypothesis body_stores : forall i t g,
  body i t g =
  (set_treeTargetPositions t
     (store3 (treeTargetPositions t) i (X t i g) (Y t i g) (Z t i g)),
   mkRNG (draws g) (cursor g + d)).
Hypothesis coordinates_ext : forall t v i g,
  X (set_treeTargetPositions t v) i g = X t i g /\
  Y (set_treeTargetPositions t v) i g = Y t i g /\
  Z (set_treeTargetPositions t v) i g = Z t i g.

Lemma fill_loop n : forall from t g,
  exists v,
    for_rand n from body t g =
      (set_treeTargetPositions t v, mkRNG (draws g) (cursor g + d * n)) /\
    length v = length (treeTargetPositions t) /\
    (forall i, (from <= i < from + n)%nat ->
       (i * 3 + 2 < length (treeTargetPositions t))%nat ->
       let gi := mkRNG (draws g) (cursor g + d * (i - from)) in
       v !! (i * 3)%nat = Some (X t i gi) /\
       v !! (i * 3 + 1)%nat = Some (Y t i gi) /\
       v !! (i * 3 + 2)%nat = Some (Z t i gi)) /\
    (forall k, (k < from * 3 \/ (from + n) * 3 <= k)%nat ->
       v !! k = treeTargetPositions t !! k).
Proof.
  induction n as [|n IH]; intros from t g.
  - exists (treeTargetPositions t). split_and!.
    + simpl. unfold ret. rewrite set_targets_same, Nat.mul_0_r, Nat.add_0_r.
      destruct g; reflexivity.
    + reflexivity.
    + intros i Hi. lia.
    + reflexivity.
  - rewrite for_rand_S, body_stores. cbn [fst snd].
    set (v1 := store3 (treeTargetPositions t) from (X t from g) (Y t from g)
                 (Z t from g)).
    destruct (IH (S from) (set_treeTargetPositions t v1)
                 (mkRNG (draws g) (cursor g + d)))
      as (v & Hrun & Hlen & Hin & Hout).
    cbn [treeTargetPositions set_treeTargetPositions draws cursor] in *.
    assert (Hlen1 : length v1 = length (treeTargetPositions t))
      by apply store3_length.
    exists v. split_and!.
    + rewrite Hrun. rewrite set_targets_twice. do 2 f_equal. lia.
    + congruence.
    + intros i Hi Hi3.
      destruct (decide (i = from)) as [->|Hne].
      * rewrite Nat.sub_diag, Nat.mul_0_r, Nat.add_0_r.
        rewrite !Hout by lia.
        replace (mkRNG (draws g) (cursor g)) with g by (destruct g; reflexivity).
        apply store3_lookup. exact Hi3.
      * destruct (Hin i) as (Hx & Hy & Hz); [lia | lia |].
        destruct (coordinates_ext t v1 i
                    (mkRNG (draws g) (cursor g + d + d * (i - S from))))
          as (Ex & Ey & Ez).
        rewrite Ex in Hx. rewrite Ey in Hy. rewrite Ez in Hz.
        assert (E : (cursor g + d + d * (i - S from) =
                     cursor g + d * (i - from))%nat).
        { replace (i - from)%nat with (S (i - S from)) by lia.
          rewrite Nat.mul_succ_r. lia. }
        rewrite <- E. auto.
    + intros k Hk. rewrite Hout by lia. apply store3_lookup_other. lia.
Qed.

End Fill.

(** ** [form] and [disperse] *)

Lemma form_body_stores i t g :
  form_body i t g =
  (set_treeTargetPositions t
     (store3 (treeTargetPositions t) i
        (bx (fst (getBanyanPosition t i g)))
        (by_ (fst (getBanyanPosition t i g)))
        (bz (fst (getBanyanPosition t i g)))),
   mkRNG (draws g) (cursor g + 4)).
Proof.
  unfold form_body, bind, ret. pose proof (banyan_draws t i g) as E.
  destruct (getBanyanPosition t i g) as [p g']. cbn [fst snd] in *.
  rewrite E. reflexivity.
Qed.

Lemma dispersed_draws g :
  snd (getDispersedPosition g) = mkRNG (draws g) (cursor g + 3).
Proof.
  unfold getDispersedPosition, bind, Math_random, ret. cbn [snd draws cursor].
  f_equal. lia.
Qed.

Lemma disperse_body_stores i t g :
  disperse_body i t g =
  (set_treeTargetPositions t
     (store3 (treeTargetPositions t) i
        (vx (fst (getDispersedPosition g)))
        (vy (fst (getDispersedPosition g)))
        (vz (fst (getDispersedPosition g)))),
   mkRNG (draws g) (cursor g + 3)).
Proof.
  unfold disperse_body, bind, ret. pose proof (dispersed_draws g) as E.
  destruct (getDispersedPosition g) as [p g']. cbn [fst snd] in *.
  rewrite E. reflexivity.
Qed.

(** What a transition out of ['dispersed'] does. *)
Lemma form_runs t g :
  state t = dispersed ->
  exists v,
    form t g = (set_treeTargetPositions (set_state t formed) v,
                mkRNG (draws g) (cursor g + 4 * treeCount t)) /\
    length v = length (treeTargetPositions t) /\
    (forall i, (i * 3 + 2 < length (treeTargetPositions t))%nat ->
       (i < treeCount t)%nat ->
       let p := fst (getBanyanPosition t i
                       (mkRNG (draws g) (cursor g + 4 * i))) in
       v !! (i * 3)%nat = Some (bx p) /\
       v !! (i * 3 + 1)%nat = Some (by_ p) /\
       v !! (i * 3 + 2)%nat = Some (bz p)).
Proof.
  intros Hs. unfold form. rewrite Hs.
  destruct (fill_loop
              (fun t i g => bx (fst (getBanyanPosition t i g)))
              (fun t i g => by_ (fst (getBanyanPosition t i g)))
              (fun t i g => bz (fst (getBanyanPosition t i g)))
              4 form_body form_body_stores
              (fun t v i g => conj eq_refl (conj eq_refl eq_refl))
              (treeCount (set_state t formed)) 0%nat (set_state t formed) g)
    as (v & Hrun & Hlen & Hin & _).
  exists v. split_and!; [exact Hrun | exact Hlen |].
  intros i Hi3 Hi. specialize (Hin i). rewrite Nat.sub_0_r in Hin.
  apply Hin; [cbn; lia | exact Hi3].
Qed.

(** What a transition out of ['formed'] does. *)
Lemma disperse_runs t g :
  state t = formed ->
  exists v,
    disperse t g = (set_treeTargetPositions (set_state t dispersed) v,
                    mkRNG (draws g) (cursor g + 3 * treeCount t)) /\
    length v = length (treeTargetPositions t) /\
    (forall i, (i * 3 + 2 < length (treeTargetPositions t))%nat ->
       (i < treeCount t)%nat ->
       let p := fst (getDispersedPosition
                       (mkRNG (draws g) (cursor g + 3 * i))) in
       v !! (i * 3)%nat = Some (vx p) /\
       v !! (i * 3 + 1)%nat = Some (vy p) /\
       v !! (i * 3 + 2)%nat = Some (vz p)).
Proof.
  intros Hs. unfold disperse. rewrite Hs.
  destruct (fill_loop
              (fun _ _ g => vx (fst (getDispersedPosition g)))
              (fun _ _ g => vy (fst (getDispersedPosition g)))
              (fun _ _ g => vz (fst (getDispersedPosition g)))
              3 disperse_body disperse_body_stores
              (fun t v i g => conj eq_refl (conj eq_refl eq_refl))
              (treeCount (set_state t dispersed)) 0%nat
              (set_state t dispersed) g)
    as (v & Hrun & Hlen & Hin & _).
  exists v. split_and!; [exact Hrun | exact Hlen |].
  intros i Hi3 Hi. specialize (Hin i). rewrite Nat.sub_0_r in Hin.
  apply Hin; [cbn; lia | exact Hi3].
Qed.

(** Either transition touches the state flag and the target buffer,
    nothing else. *)
Lemma form_frame t g :
  exists s v, fst (form t g) = set_treeTargetPositions (set_state t s) v /\
              length v = length (treeTargetPositions t).
Proof.
  destruct (state t) eqn:Hs.
  - exists formed, (treeTargetPositions t). unfold form. rewrite Hs.
    split; [|reflexivity]. destruct t; cbn in *; subst; reflexivity.
  - destruct (form_runs t g Hs) as (v & Hrun & Hlen & _).
    exists formed, v. rewrite Hrun. auto.
Qed.

Lemma disperse_frame t g :
  exists s v, fst (disperse t g) = set_treeTargetPositions (set_state t s) v /\
              length v = length (treeTargetPositions t).
Proof.
  destruct (state t) eqn:Hs.
  - destruct (disperse_runs t g Hs) as (v & Hrun & Hlen & _).
    exists dispersed, v. rewrite Hrun. auto.
  - exists dispersed, (treeTargetPositions t). unfold disperse. rewrite Hs.
    split; [|reflexivity]. destruct t; cbn in *; subst; reflexivity.
Qed.

(** ** The animator *)

Lemma blend_loop_spec n : forall from (positions targets : Float32Array),
  (from + n <= length positions)%nat ->
  (from + n <= length targets)%nat ->
  exists v,
    blend_loop n from positions targets = Some v /\
    length v = length positions /\
    (forall k c q, (from <= k < from + n)%nat ->
       positions !! k = Some c -> targets !! k = Some q ->
       v !! k = Some (c + (q - c) * 0.06)) /\
    (forall k, (k < from \/ from + n <= k)%nat -> v !! k = positions !! k).
Proof.
  induction n as [|n IH]; intros from positions targets Hp Hq.
  - exists positions. split_and!; try reflexivity. intros; lia.
  - destruct (lookup_lt_is_Some_2 positions from) as [c Hc]; [lia|].
    destruct (lookup_lt_is_Some_2 targets from) as [q Hq']; [lia|].
    destruct (IH (S from) (<[from := c + (q - c) * 0.06]> positions) targets)
      as (v & Hrun & Hlen & Hin & Hout).
    { rewrite length_insert. lia. }
    { lia. }
    exists v. split_and!.
    + cbn [blend_loop]. rewrite Hc, Hq'. exact Hrun.
    + rewrite Hlen. apply length_insert.
    + intros k c' q' Hk Hc' Hq''.
      destruct (decide (k = from)) as [->|Hne].
      * rewrite Hout by lia. rewrite list_lookup_insert_eq by lia.
        congruence.
      * apply Hin; [lia | | exact Hq''].
        rewrite list_lookup_insert_ne by lia. exact Hc'.
    + intros k Hk. rewrite Hout by lia.
      apply list_lookup_insert_ne. lia.
Qed.

Section Animator.

Variable hex : Z -> Color.
Variable hsl : R -> R -> R -> Color.

Lemma updateMeteors_loop_ok n : forall from d ps cs g,
  (from + n <= length d)%nat ->
  exists d' ps' cs' g',
    updateMeteors_loop hex n from (d, ps, cs) g = Some (d', ps', cs', g') /\
    length d' = length d.
Proof.
  induction n as [|n IH]; intros from d ps cs g Hd.
  - exists d, ps, cs, g. split; reflexivity.
  - destruct (lookup_lt_is_Some_2 d from) as [data Hdata]; [lia|].
    cbn [updateMeteors_loop]. unfold updateMeteors_body. rewrite Hdata.
    cbn [mbind option_bind].
    match goal with
    | |- context [if ?c then resetMeteor hex false g else ?e] =>
        destruct (if c then resetMeteor hex false g else e) as [data' g1]
    end.
    cbn [mbind option_bind].
    match goal with
    | |- context [updateMeteors_loop hex n (S from) (<[from := data']> d, ?p, ?c) g1] =>
        destruct (IH (S from) (<[from := data']> d) p c g1)
          as (d' & ps' & cs' & g' & Hrun & Hlen)
    end.
    { rewrite length_insert. lia. }
    exists d', ps', cs', g'. split; [exact Hrun|].
    rewrite Hlen. apply length_insert.
Qed.

(** What [update] never writes, whatever the tree. *)
Lemma update_untouched t g t' g' :
  update hex t g = Some (t', g') ->
  treeCount t' = treeCount t /\
  meteorCount t' = meteorCount t /\
  treeTargetPositions t' = treeTargetPositions t /\
  treeColors t' = treeColors t /\
  treeSizes t' = treeSizes t /\
  treeOpacities t' = treeOpacities t /\
  state t' = state t.
Proof.
  unfold update.
  destruct (blend_loop _ _ _ _) as [v|]; [|discriminate].
  cbn [mbind option_bind].
  destruct (particles _) as [o|]; cbn -[Rplus Rmult];
    (destruct (meteors t) as [m|]; cbn -[Rplus Rmult];
     [destruct (updateMeteors_loop _ _ _ _ _) as [[[[d ps] cs] g1]|];
      cbn -[Rplus Rmult] | ]);
    intros [= <- <-] || discriminate; cbn; auto 10.
Qed.

(** One frame on a well-formed tree: it succeeds, and this is what it
    does to the tree particles. *)
Lemma update_spec t g :
  well_formed t ->
  exists t' g',
    update hex t g = Some (t', g') /\
    well_formed t' /\
    rotationSpeed t' = rotationSpeed t * 0.96 /\
    orientation t' = (fun y => y + rotationSpeed t) <$> orientation t /\
    uTime t' = uTime t + 0.01 /\
    (forall k c q,
       treePositions t !! k = Some c -> treeTargetPositions t !! k = Some q ->
       treePositions t' !! k = Some (c + (q - c) * 0.06)).
Proof.
  intros (Hp & Hq & Hd & [o Ho]).
  destruct (blend_loop_spec (treeCount t * 3) 0 (treePositions t)
              (treeTargetPositions t)) as (v & Hrun & Hlen & Hin & _);
    [lia | lia |].
  assert (Hpos : forall k c q,
             treePositions t !! k = Some c ->
             treeTargetPositions t !! k = Some q ->
             v !! k = Some (c + (q - c) * 0.06)).
  { intros k c q Hc Hq'. apply Hin; auto.
    apply lookup_lt_Some in Hc. lia. }
  destruct (updateMeteors_loop_ok (meteorCount t) 0 (meteorData t)
              (meteorPositions t) (meteorColors t) g)
    as (d' & ps' & cs' & g' & Hmet & Hlen'); [lia|].
  unfold update, orientation, well_formed.
  destruct t as [N M ps ts cols szs ops st sp ut pa me md mp mc].
  tree_simpl. rewrite Hrun. subst pa. tree_simpl.
  destruct me as [m|].
  - rewrite Hmet. eexists _, _. split; [reflexivity|]. tree_simpl.
    split_and!; eauto; congruence.
  - eexists _, _. split; [reflexivity|]. tree_simpl.
    split_and!; eauto; congruence.
Qed.

Lemma pow_fraction a n :
  0 <= a < 1 -> 0 <= a ^ n <= 1 /\ a ^ S n <= a ^ n.
Proof.
  intros Ha. induction n as [|n [IH1 IH2]]; cbn [pow] in *; nra.
Qed.

(** [n] frames on a well-formed tree: they succeed; the targets stay;
    each current coordinate has closed the gap to its target by the
    factor [0.94 ^ n]; the rotation velocity has shrunk by [0.96 ^ n]. *)
Lemma updates_spec n : forall t g,
  well_formed t ->
  exists tn gn,
    updates hex n t g = Some (tn, gn) /\
    well_formed tn /\
    treeTargetPositions tn = treeTargetPositions t /\
    rotationSpeed tn = rotationSpeed t * 0.96 ^ n /\
    (forall k c q,
       treePositions t !! k = Some c -> treeTargetPositions t !! k = Some q ->
       treePositions tn !! k = Some (q - (q - c) * 0.94 ^ n)).
Proof.
  induction n as [|n IH]; intros t g Hwf.
  - exists t, g. split_and!; auto.
    + cbn [pow]. lra.
    + intros k c q Hc _. rewrite Hc. f_equal. cbn [pow]. lra.
  - destruct (update_spec t g Hwf) as (t1 & g1 & Hrun & Hwf1 & Hv & _ & _ & Hpos).
    destruct (update_untouched _ _ _ _ Hrun) as (_ & _ & Htg & _).
    destruct (IH t1 g1 Hwf1) as (tn & gn & Hrunn & Hwfn & Htgn & Hvn & Hposn).
    exists tn, gn. split_and!; auto.
    + cbn [updates]. rewrite Hrun. exact Hrunn.
    + congruence.
    + rewrite Hvn, Hv. cbn [pow]. lra.
    + intros k c q Hc Hq. rewrite <- Htg in Hq.
      rewrite (Hposn k _ q (Hpos k c q Hc ltac:(congruence)) Hq).
      f_equal. cbn [pow]. lra.
Qed.

Lemma rotate_well_formed x t : well_formed t -> well_formed (rotate x t).
Proof. unfold well_formed, rotate. tree_simpl. auto. Qed.

Lemma form_well_formed t g : well_formed t -> well_formed (fst (form t g)).
Proof.
  destruct (form_frame t g) as (s & v & -> & Hlen).
  unfold well_formed. tree_simpl. rewrite Hlen. auto.
Qed.

Lemma disperse_well_formed t g :
  well_formed t -> well_formed (fst (disperse t g)).
Proof.
  destruct (disperse_frame t g) as (s & v & -> & Hlen).
  unfold well_formed. tree_simpl. rewrite Hlen. auto.
Qed.

(** ** Construction *)

Lemma initParticles_body_invariant N i s g :
  init_invariant N (fst s) ->
  init_invariant N (fst (fst (initParticles_body hex hsl i s g))).
Proof.
  destruct s as [t color]. unfold initParticles_body, bind, ret.
  destruct (getBanyanPosition t i g) as [p g1].
  destruct (appearance _ _ _ _ _) as [[[c sz] op] g2].
  unfold init_invariant. tree_simpl.
  intros (HN & Hlen & Heq & Hst & Hsp).
  rewrite store3_length, <- Heq. auto 10.
Qed.

Lemma initParticles_spec N t g :
  init_invariant N t ->
  let t' := fst (initParticles hex hsl t g) in
  init_invariant N t' /\ is_Some (particles t').
Proof.
  intros Hinv. unfold initParticles, bind, ret.
  pose proof (for_rand_invariant
                (fun _ (s : ParticleTree * Color) _ => init_invariant N (fst s))
                (initParticles_body hex hsl) (treeCount t) 0
                (t, new_Color) g) as H.
  destruct (for_rand _ _ _ _ _) as [[t1 c1] g1]. tree_simpl.
  split; [|eexists; reflexivity].
  unfold init_invariant in *. tree_simpl. apply H; [|exact Hinv].
  intros i s g' _. apply initParticles_body_invariant.
Qed.

Lemma initMeteors_spec t g :
  let t' := fst (initMeteors hex t g) in
  length (meteorData t') = meteorCount t /\
  t' = set_meteors t (meteors t') (meteorData t') (meteorPositions t')
         (meteorColors t').
Proof.
  unfold initMeteors, bind, ret.
  pose proof (for_rand_invariant
                (fun i (d : list Meteor) _ => length d = i)
                (initMeteors_body hex) (meteorCount t) 0 [] g) as H.
  destruct (for_rand _ _ _ _ _) as [d g1]. tree_simpl.
  split; [|reflexivity].
  apply H; [|reflexivity].
  intros i d' g' _ Hd. unfold initMeteors_body, bind, ret.
  destruct (resetMeteor hex true g') as [m g2]. tree_simpl.
  rewrite length_app, Hd. cbn. lia.
Qed.

(** The tree as the constructor leaves it. *)
Lemma constructor_spec g :
  let t := fst (constructor_ hex hsl g) in
  well_formed t /\ state t = formed /\
  treePositions t = treeTargetPositions t /\ rotationSpeed t = 0.
Proof.
  unfold constructor_, bind. generalize (Z.to_nat 20000). intros N.
  match goal with
  | |- context [initParticles hex hsl ?t0 g] =>
      pose proof (initParticles_spec N t0 g) as H; set (t0' := t0) in *
  end.
  destruct (initParticles hex hsl t0' g) as [t1 g1]. tree_simpl.
  destruct H as ((HN & Hlen & Heq & Hst & Hsp) & Hpa).
  { unfold init_invariant, t0', new_Float32Array. tree_simpl.
    rewrite length_replicate. auto 10. }
  destruct (initMeteors_spec t1 g1) as (Hd & ->).
  unfold well_formed. tree_simpl. rewrite <- Heq, HN. auto 10.
Qed.

Lemma reachable_well_formed t : reachable hex hsl t -> well_formed t.
Proof.
  induction 1 as [g|t g _ IH|t g _ IH|x t _ IH|t g t' g' _ IH Hrun].
  - apply constructor_spec.
  - apply form_well_formed, IH.
  - apply disperse_well_formed, IH.
  - apply rotate_well_formed, IH.
  - destruct (update_spec t g IH) as (t1 & g1 & Hrun1 & Hwf & _).
    congruence.
Qed.

(** Without a [disperse] the state stays ['formed'] and the targets stay
    what they were. *)
Lemma undispersed_keeps_targets t0 t :
  state t0 = formed ->
  undispersed hex t0 t ->
  state t = formed /\ treeTargetPositions t = treeTargetPositions t0.
Proof.
  intros H0. induction 1 as [|t g _ [Hs Ht]|x t _ [Hs Ht]|t g t' g' _ [Hs Ht] Hrun].
  - auto.
  - unfold form. rewrite Hs. auto.
  - unfold rotate. tree_simpl. auto.
  - destruct (update_untouched _ _ _ _ Hrun) as (_ & _ & Htg & _ & _ & _ & Hst).
    split; congruence.
Qed.

(** C9. The constructed tree is in state ['formed'] with its current
    positions equal to its targets, coordinate by coordinate over all
    [3 * treeCount] of them; [form] on it returns at once, changing
    nothing and drawing nothing; and that stays so, with the targets
    still the constructed ones, after any sequence of [form], [rotate]
    and [update] calls: only a [disperse] makes [form] resample. *)
Theorem constructed_tree_is_formed (g : RNG) :
  let t := fst (constructor_ hex hsl g) in
  state t = formed /\
  length (treePositions t) = (treeCount t * 3)%nat /\
  treePositions t = treeTargetPositions t /\
  (forall g', form t g' = (t, g')) /\
  (forall t', undispersed hex t t' ->
     treeTargetPositions t' = treeTargetPositions t /\
     forall g', form t' g' = (t', g')).
Proof.
  intros t. destruct (constructor_spec g) as ((Hlen & _) & Hs & Heq & _).
  fold t in Hlen, Hs, Heq. split_and!; auto.
  - intros g'. unfold form. rewrite Hs. reflexivity.
  - intros t' Hcalm.
    destruct (undispersed_keeps_targets t t' Hs Hcalm) as [Hs' Ht'].
    split; [exact Ht'|]. intros g'. unfold form. rewrite Hs'. reflexivity.
Qed.

(** C2. On a well-formed tree one [update] replaces each coordinate [c]
    of the current-position buffer, its target being [q], by
    [c + (q - c) * 0.06]: from 0 towards 10 that is 0.6.  After [n]
    updates the coordinate is [q - (q - c) * 0.94 ^ n]; when it starts at
    or below its target it never decreases from one frame to the next
    and never exceeds the target (strictly below it, it increases and
    stays strictly below), and it comes as close to the target as one
    likes. *)
Theorem update_blends_toward_target
    (t : ParticleTree) (g : RNG) (k : nat) (c q : R) :
  well_formed t ->
  treePositions t !! k = Some c ->
  treeTargetPositions t !! k = Some q ->
  coordinate_after hex 1 t g k = Some (c + (q - c) * 0.06) /\
  (c = 0 -> q = 10 -> coordinate_after hex 1 t g k = Some 0.6) /\
  (forall n, coordinate_after hex n t g k = Some (q - (q - c) * 0.94 ^ n)) /\
  (c <= q -> forall n, exists cn cn',
     coordinate_after hex n t g k = Some cn /\
     coordinate_after hex (S n) t g k = Some cn' /\
     c <= cn /\ cn <= cn' /\ cn' <= q /\ (c < q -> cn < cn' < q)) /\
  (forall eps, 0 < eps -> exists n0, forall n, (n0 <= n)%nat ->
     exists cn, coordinate_after hex n t g k = Some cn /\ Rabs (q - cn) < eps).
Proof.
  intros Hwf Hc Hq.
  assert (Hn : forall n,
             coordinate_after hex n t g k = Some (q - (q - c) * 0.94 ^ n)).
  { intros n. unfold coordinate_after.
    destruct (updates_spec n t g Hwf) as (tn & gn & -> & _ & _ & _ & Hpos).
    tree_simpl. apply Hpos; assumption. }
  assert (H1 : coordinate_after hex 1 t g k = Some (c + (q - c) * 0.06)).
  { rewrite Hn. f_equal. cbn [pow]. lra. }
  split_and!; auto.
  - intros -> ->. rewrite H1. f_equal. lra.
  - intros Hle n. exists (q - (q - c) * 0.94 ^ n), (q - (q - c) * 0.94 ^ S n).
    destruct (pow_fraction 0.94 n) as [[Hlo Hhi] Hdec]; [lra|].
    destruct (pow_fraction 0.94 (S n)) as [[Hlo' _] _]; [lra|].
    assert (Hpos : 0 < 0.94 ^ n) by (apply pow_lt; lra).
    assert (Hpos' : 0 < 0.94 ^ S n) by (apply pow_lt; lra).
    assert (Hstep : 0.94 ^ S n = 0.94 * 0.94 ^ n) by reflexivity.
    split_and!; auto; intros; nra.
  - intros eps Heps.
    destruct (pow_lt_1_zero 0.94) with (y := eps / (Rabs (q - c) + 1))
      as [n0 Hn0].
    { rewrite Rabs_pos_eq; lra. }
    { apply Rdiv_lt_0_compat; [lra|]. pose proof (Rabs_pos (q - c)). lra. }
    exists n0. intros n Hge. eexists. split; [apply Hn|].
    replace (q - (q - (q - c) * 0.94 ^ n)) with ((q - c) * 0.94 ^ n) by lra.
    rewrite Rabs_mult. specialize (Hn0 n Hge).
    pose proof (Rabs_pos (q - c)) as Hpos.
    pose proof (Rabs_pos (0.94 ^ n)) as Hpos'.
    apply Rlt_le_trans with ((Rabs (q - c) + 1) * (eps / (Rabs (q - c) + 1))).
    + nra.
    + right. field. lra.
Qed.

(** C8. On a well-formed tree one [update] adds the rotation velocity,
    as it stands before the frame, to [particles.rotation.y] and then
    multiplies the velocity by 0.96.  So [n] updates after [rotate(x)]
    leave the velocity at [(x - 0.5) * 0.1 * 0.96 ^ n]: of the sign it
    started with, no larger in magnitude, and below any positive bound
    once [n] is large enough. *)
Theorem rotation_decays (t : ParticleTree) (g : RNG) (x : R) (n : nat) :
  well_formed t ->
  (exists t' g',
     update hex t g = Some (t', g') /\
     (exists y, orientation t = Some y /\
                orientation t' = Some (y + rotationSpeed t)) /\
     rotationSpeed t' = rotationSpeed t * 0.96) /\
  let v0 := rotationSpeed (rotate x t) in
  v0 = (x - 0.5) * 0.1 /\
  (exists vn,
     speed_after hex n (rotate x t) g = Some vn /\
     vn = v0 * 0.96 ^ n /\
     (0 < v0 -> 0 < vn <= v0) /\
     (v0 < 0 -> v0 <= vn < 0) /\
     (v0 = 0 -> vn = 0)) /\
  (forall eps, 0 < eps -> exists n0, forall m, (n0 <= m)%nat ->
     exists vm, speed_after hex m (rotate x t) g = Some vm /\ Rabs vm < eps).
Proof.
  intros Hwf.
  assert (Hn : forall m, speed_after hex m (rotate x t) g =
                         Some (rotationSpeed (rotate x t) * 0.96 ^ m)).
  { intros m. unfold speed_after.
    destruct (updates_spec m (rotate x t) g (rotate_well_formed x t Hwf))
      as (tn & gn & -> & _ & _ & Hv & _).
    tree_simpl. rewrite Hv. reflexivity. }
  split; [|intros v0; split_and!].
  - destruct (update_spec t g Hwf) as (t' & g' & Hrun & _ & Hv & Ho & _).
    exists t', g'. split_and!; auto.
    destruct Hwf as (_ & _ & _ & [o Hpa]).
    exists (rotation_y o). unfold orientation in *. rewrite Ho, Hpa.
    split; reflexivity.
  - reflexivity.
  - exists (v0 * 0.96 ^ n). split; [apply Hn|].
    assert (Hpow : 0 < 0.96 ^ n) by (apply pow_lt; lra).
    destruct (pow_fraction 0.96 n) as [[_ Hhi] _]; [lra|].
    split_and!; auto; intros; nra.
  - intros eps Heps.
    destruct (pow_lt_1_zero 0.96) with (y := eps / (Rabs v0 + 1)) as [n0 Hn0].
    { rewrite Rabs_pos_eq; lra. }
    { apply Rdiv_lt_0_compat; [lra|]. pose proof (Rabs_pos v0). lra. }
    exists n0. intros m Hge. eexists. split; [apply Hn|].
    fold v0. rewrite Rabs_mult. specialize (Hn0 m Hge).
    pose proof (Rabs_pos v0) as Hpos.
    pose proof (Rabs_pos (0.96 ^ m)) as Hpos'.
    apply Rlt_le_trans with ((Rabs v0 + 1) * (eps / (Rabs v0 + 1))).
    + nra.
    + right. field. lra.
Qed.

(** C6. On every reachable tree, [form] and [disperse] change at most
    the state flag and the target buffer: the current positions, the
    colours, the sizes and the opacities are the same arrays afterwards.
    [rotate] and [update] leave colours, sizes and opacities alone as
    well, so that nothing after the constructor writes them. *)
Theorem transitions_touch_only_targets
    (t : ParticleTree) (g : RNG) (x : R) :
  reachable hex hsl t ->
  (exists s v, fst (form t g) = set_treeTargetPositions (set_state t s) v) /\
  (exists s v, fst (disperse t g) = set_treeTargetPositions (set_state t s) v) /\
  (treePositions (fst (form t g)) = treePositions t /\
   same_appearance t (fst (form t g))) /\
  (treePositions (fst (disperse t g)) = treePositions t /\
   same_appearance t (fst (disperse t g))) /\
  same_appearance t (rotate x t) /\
  (exists t' g', update hex t g = Some (t', g') /\ same_appearance t t').
Proof.
  intros Hreach. pose proof (reachable_well_formed t Hreach) as Hwf.
  destruct (form_frame t g) as (s & v & Hf & _).
  destruct (disperse_frame t g) as (s' & v' & Hd & _).
  assert (Hu : exists t' g',
             update hex t g = Some (t', g') /\ same_appearance t t').
  { destruct (update_spec t g Hwf) as (t' & g' & Hrun & _).
    exists t', g'. split; [exact Hrun|].
    destruct (update_untouched _ _ _ _ Hrun) as (_ & _ & _ & Hc & Hs & Ho & _).
    repeat split; assumption. }
  split; [eauto|]. split; [eauto|].
  rewrite Hf, Hd. unfold same_appearance, rotate. tree_simpl.
  split_and!; auto.
Qed.

(** C5. [form] on a ['formed'] tree and [disperse] on a ['dispersed']
    one return the tree, and the random source, exactly as they were.
    [form] on a ['dispersed'] tree sets the state to ['formed'] and
    stores, for every index [i] below [treeCount], the point that
    [getBanyanPosition(i)] computes from four draws of its own (the
    fresh draws [4i .. 4i+3] after the cursor) at [3i], [3i+1], [3i+2]
    of the target buffer. *)
Theorem form_disperse_idempotent (t : ParticleTree) (g : RNG) :
  (state t = formed -> form t g = (t, g)) /\
  (state t = dispersed -> disperse t g = (t, g)) /\
  (state t = dispersed ->
   length (treeTargetPositions t) = (treeCount t * 3)%nat ->
   let t' := fst (form t g) in
   state t' = formed /\
   length (treeTargetPositions t') = (treeCount t * 3)%nat /\
   forall i, (i < treeCount t)%nat ->
     let p := fst (getBanyanPosition t i
                     (mkRNG (draws g) (cursor g + 4 * i))) in
     treeTargetPositions t' !! (i * 3)%nat = Some (bx p) /\
     treeTargetPositions t' !! (i * 3 + 1)%nat = Some (by_ p) /\
     treeTargetPositions t' !! (i * 3 + 2)%nat = Some (bz p)).
Proof.
  split_and!.
  - intros Hs. unfold form. rewrite Hs. reflexivity.
  - intros Hs. unfold disperse. rewrite Hs. reflexivity.
  - intros Hs Hlen. destruct (form_runs t g Hs) as (v & -> & Hlenv & Hin).
    tree_simpl. split_and!; [reflexivity | congruence |].
    intros i Hi. apply Hin; lia.
Qed.

End Animator.

(** ** The solid sphere of [disperse] *)

(** [Math_cbrt] is the cube root. *)
Lemma cbrt_cube v : Math_cbrt v ^ 3 = v.
Proof.
  assert (Hpos : forall w, 0 < w -> Rpower w (/ 3) ^ 3 = w).
  { intros w Hw. rewrite <- Rpower_pow by apply exp_pos.
    rewrite Rpower_mult. replace (/ 3 * INR 3) with 1 by (cbn; field).
    apply Rpower_1. exact Hw. }
  unfold Math_cbrt.
  destruct (Rlt_dec 0 v) as [H|H]; [apply Hpos, H|].
  destruct (Rlt_dec v 0) as [H'|H'].
  - replace ((- Rpower (- v) (/ 3)) ^ 3) with (- (Rpower (- v) (/ 3) ^ 3))
      by ring.
    rewrite Hpos by lra. ring.
  - replace v with 0 by lra. ring.
Qed.

Lemma cbrt_unit u : 0 <= u < 1 -> 0 <= Math_cbrt u < 1.
Proof.
  intros [Hlo Hhi]. unfold Math_cbrt.
  destruct (Rlt_dec 0 u) as [H|H].
  - unfold Rpower. split; [left; apply exp_pos|].
    rewrite <- exp_0. apply exp_increasing.
    assert (ln u < 0) by (rewrite <- ln_1; apply ln_increasing; lra).
    lra.
  - destruct (Rlt_dec u 0); lra.
Qed.



(** ** [rotate] *)

(** C3. Whatever the velocity was, [rotate(x)] leaves it at exactly
    [(x - 0.5) * 0.1]: nothing of the old value remains.  [rotate(0.5)]
    gives 0, [rotate(1.0)] gives [0.1 / 2], [rotate(0.0)] gives
    [- (0.1 / 2)], and these two bound the velocity of every [x] in
    [0, 1]. *)
Theorem rotate_overwrites_speed (x prior : R) (t : ParticleTree) :
  rotationSpeed (rotate x (set_rotationSpeed t prior)) = (x - 0.5) * 0.1 /\
  rotate x (set_rotationSpeed t prior) = rotate x t /\
  rotationSpeed (rotate 0.5 t) = 0 /\
  rotationSpeed (rotate 1.0 t) = 0.1 / 2 /\
  rotationSpeed (rotate 0.0 t) = - (0.1 / 2) /\
  (0 <= x <= 1 -> - (0.1 / 2) <= rotationSpeed (rotate x t) <= 0.1 / 2).
Proof.
  unfold rotate. tree_simpl. split_and!; try reflexivity; try lra.
Qed.

(** C4, as the code has it.  [rotate] does not clamp: for every real
    [x] it returns, with the velocity [(x - 0.5) * 0.1], and that
    velocity stays within [0.1 / 2] in magnitude exactly when [x] lies
    in [0, 1]. *)
Theorem rotate_unclamped (x : R) (t : ParticleTree) :
  rotationSpeed (rotate x t) = (x - 0.5) * 0.1 /\
  (Rabs (rotationSpeed (rotate x t)) <= 0.1 / 2 <-> 0 <= x <= 1).
Proof.
  unfold rotate. tree_simpl. split; [reflexivity|].
  unfold Rabs. destruct (Rcase_abs _); split; intros; lra.
Qed.

(** ** The emitter *)

Section Emitter.

Context {W : Type}.

Implicit Types (gc : GestureController W) (cb : Callback W).

Lemma on_registered gc event cb cbs :
  listeners gc !! event = Some cbs ->
  listeners (on event cb gc) !! event = Some (cbs ++ [cb]).
Proof.
  intros H. unfold on. rewrite H. cbn [listeners]. apply lookup_insert_eq.
Qed.

Lemma on_other gc event event' cb :
  event <> event' ->
  listeners (on event cb gc) !! event' = listeners gc !! event'.
Proof.
  intros H. unfold on. destruct (listeners gc !! event); [|reflexivity].
  cbn [listeners]. apply lookup_insert_ne, H.
Qed.

Lemma forEach_single cb data (w : W) : forEach [cb] data w = cb data w.
Proof. cbn [forEach]. destruct (cb data w); reflexivity. Qed.

(** One listener per event, registered in the order of [main.js]. *)
Lemma one_listener_each (f o m : Callback W) :
  let gc := on "move" m (on "open" o (on "fist" f new_GestureController)) in
  listeners gc !! "fist" = Some [f] /\
  listeners gc !! "open" = Some [o] /\
  listeners gc !! "move" = Some [m].
Proof.
  assert (Hf : listeners (on "fist" f new_GestureController) !! "fist"
               = Some [f]).
  { apply (on_registered _ _ _ []). reflexivity. }
  assert (Ho : listeners (on "open" o (on "fist" f new_GestureController))
                 !! "open" = Some [o]).
  { apply (on_registered _ _ _ []). rewrite on_other by done. reflexivity. }
  split_and!.
  - rewrite !on_other by done. exact Hf.
  - rewrite on_other by done. exact Ho.
  - apply (on_registered _ _ _ []). rewrite !on_other by done. reflexivity.
Qed.

(** With one listener per event, [processGestures] calls the gesture's
    listener, if a gesture is recognised, and then the ['move'] listener
    with [wrist.x]. *)
Lemma processGestures_calls (f o m : Callback W) gc hand w :
  listeners gc !! "fist" = Some [f] ->
  listeners gc !! "open" = Some [o] ->
  listeners gc !! "move" = Some [m] ->
  length hand = 21%nat ->
  exists wrist,
    hand !! 0%nat = Some wrist /\
    processGestures hand gc w =
      w' ← (if Rlt_dec (avgDist wrist (fingertips hand)) 0.2
            then f undefined w
            else if Rlt_dec 0.3 (avgDist wrist (fingertips hand))
                 then o undefined w
                 else Some w);
      m (number (vx wrist)) w'.
Proof.
  intros Hf Ho Hm Hlen.
  do 21 (destruct hand as [|? hand]; [discriminate Hlen|]).
  match goal with
  | |- context [(?v :: ?h) !! 0%nat] =>
      assert (H0 : (v :: h) !! 0%nat = Some v) by reflexivity;
      assert (Htips : mapM (fun i : nat => (v :: h) !! i) [8; 12; 16; 20]%nat
                      = Some (fingertips (v :: h))) by reflexivity;
      set (landmarks := v :: h) in *
  end.
  eexists. split; [exact H0|].
  unfold processGestures, emit. rewrite H0, Htips, Hf, Ho, Hm.
  cbn [mbind option_bind]. rewrite !forEach_single.
  match goal with
  | |- mbind _ ?X = _ => destruct X as [w1|]
  end; cbn [mbind option_bind]; [apply forEach_single | reflexivity].
Qed.

(** Before any listener is registered a frame is heard by nobody: the
    events are emitted into empty arrays.  This is the state in which
    [initialize] makes the first call of [predictWebcam], ahead of the
    [on] calls of [main.js]. *)
Lemma frame_before_listeners (last time : R) hand others (w : W) :
  length hand = 21%nat ->
  snd <$> predictWebcam time (hand :: others)
            (mkController last (listeners new_GestureController)) w = Some w.
Proof.
  intros Hlen. unfold predictWebcam. cbn [lastVideoTime listeners].
  destruct (Req_dec_T last time); [reflexivity|].
  do 21 (destruct hand as [|? hand]; [discriminate Hlen|]).
  match goal with
  | |- context [processGestures (?v :: ?h)] =>
      assert (H0 : (v :: h) !! 0%nat = Some v) by reflexivity;
      assert (Htips : mapM (fun i : nat => (v :: h) !! i) [8; 12; 16; 20]%nat
                      = Some (fingertips (v :: h))) by reflexivity;
      set (landmarks := v :: h) in *
  end.
  unfold processGestures, emit. rewrite H0, Htips.
  cbn [mbind option_bind listeners].
  assert (Hf : listeners (@new_GestureController W) !! "fist" = Some [])
    by reflexivity.
  assert (Ho : listeners (@new_GestureController W) !! "open" = Some [])
    by reflexivity.
  assert (Hm : listeners (@new_GestureController W) !! "move" = Some [])
    by reflexivity.
  rewrite Hf, Ho, Hm. cbn [forEach].
  destruct (Rlt_dec _ 0.2); [|destruct (Rlt_dec 0.3 _)]; reflexivity.
Qed.

End Emitter.

(** ** A frame with a hand in it *)

(** C10, as the code has it.  Take a frame whose time differs from the
    last one processed and in which a hand (21 landmarks) is detected.
    A listener on every event then hears at most one gesture, ['fist']
    when the average fingertip distance is below 0.2, ['open'] when it
    is above 0.3, and after it, in every case, ['move'] with [wrist.x].
    Once [main.js] has registered its listeners the tree goes through
    [form] or [disperse] accordingly, then through [rotate(wrist.x)]:
    whichever gesture fired, if any, the rotation velocity ends at
    [(wrist.x - 0.5) * 0.1].  Before that, on the controller as
    [initialize] runs it, the same frame leaves the tree, and with it
    the rotation velocity, as it was. *)
Theorem move_follows_every_gesture
    (last time : R) (hand : list Vec3) (others : list (list Vec3))
    (t : ParticleTree) (g : RNG) :
  length hand = 21%nat ->
  last <> time ->
  let recording :=
    mkController last (listeners (record_all new_GestureController)) in
  let page :=
    mkController last (listeners (connect new_GestureController)) in
  let unconnected :=
    mkController last (listeners (@new_GestureController Page)) in
  exists wrist,
    hand !! 0%nat = Some wrist /\
    let d := avgDist wrist (fingertips hand) in
    snd <$> predictWebcam time (hand :: others) recording [] =
      Some ((if Rlt_dec d 0.2 then [("fist", undefined)]
             else if Rlt_dec 0.3 d then [("open", undefined)]
             else []) ++ [("move", number (vx wrist))]) /\
    (exists t' g',
       snd <$> predictWebcam time (hand :: others) page (t, g) =
         Some (t', g') /\
       (t', g') =
         (let (t1, g1) := if Rlt_dec d 0.2 then form t g
                          else if Rlt_dec 0.3 d then disperse t g
                          else (t, g) in
          (rotate (vx wrist) t1, g1)) /\
       rotationSpeed t' = (vx wrist - 0.5) * 0.1) /\
    snd <$> predictWebcam time (hand :: others) unconnected (t, g) =
      Some (t, g).
Proof.
  intros Hlen Hne recording page unconnected.
  pose proof (frame_before_listeners last time hand others (t, g) Hlen)
    as Hbefore.
  destruct (one_listener_each (recorder "fist") (recorder "open")
              (recorder "move")) as (Rf & Ro & Rm).
  destruct (one_listener_each fist_listener open_listener move_listener)
    as (Pf & Po & Pm).
  destruct (processGestures_calls _ _ _
              (mkController time (listeners (record_all new_GestureController)))
              hand [] Rf Ro Rm Hlen) as (wrist & Hw & Hrec).
  destruct (processGestures_calls _ _ _
              (mkController time (listeners (connect new_GestureController)))
              hand (t, g) Pf Po Pm Hlen) as (wrist' & Hw' & Hpage).
  assert (wrist' = wrist) as -> by congruence.
  exists wrist. split; [exact Hw|]. intros d.
  split; [|split; [|exact Hbefore]];
    unfold predictWebcam, recording, page; cbn [lastVideoTime listeners];
    (destruct (Req_dec_T last time) as [E|_]; [contradiction|]);
    rewrite ?Hrec, ?Hpage; fold d;
    unfold recorder, fist_listener, open_listener, move_listener;
    cbn [fst snd].
  - destruct (Rlt_dec d 0.2); [|destruct (Rlt_dec 0.3 d)]; reflexivity.
  - destruct (Rlt_dec d 0.2); [|destruct (Rlt_dec 0.3 d)];
      cbn [mbind option_bind fmap option_fmap option_map fst snd].
    + destruct (form t g) as [t1 g1]. eexists _, _. repeat split.
    + destruct (disperse t g) as [t1 g1]. eexists _, _. repeat split.
    + eexists _, _. repeat split.
Qed.

(** ** Cross-checks in IEEE 754 *)

Module Binary64Facts.

Import ZArith PrimFloat Binary64.
#[local] Set Warnings "-inexact-float".
Local Open Scope float_scope.

(** At 20000 particles the two bounds are the integers 5000 and 7000,
    in binary64 as in the reals. *)
Lemma bounds_are_exact : trunk_bound = 5000 /\ root_bound = 7000.
Proof. vm_compute. split; reflexivity. Qed.

(** The three velocities that C3 names: zero, and the two halves of the
    gain. *)
Lemma speed_at_named_inputs :
  speed 0.5 = 0 /\ speed 1 = 0.1 / 2 /\ speed 0 = - (0.1 / 2).
Proof. vm_compute. split_and!; reflexivity. Qed.

(** No clamp in binary64 either. *)
Lemma speed_beyond_range : (speed 1 <? speed 2) = true.
Proof. vm_compute. reflexivity. Qed.

(** From 0 towards 10 one frame stores the binary32 value next to 0.6. *)
Lemma first_frame : frames 1 0 10 = fround 0.6.
Proof. vm_compute. reflexivity. Qed.

Lemma rising_frames n : forall p q k,
  rising n p q = true -> (k < n)%nat ->
  (frames k p q <=? frames (S k) p q) = true /\
  (frames (S k) p q <=? q) = true.
Proof.
  induction n as [|n IH]; intros p q k H Hk; [lia|].
  cbn [rising] in H. apply andb_prop in H as [H H3].
  apply andb_prop in H as [H1 H2].
  destruct k as [|k]; cbn [frames]; [auto|].
  apply (IH (blend p q) q k H3). lia.
Qed.

Lemma frames_at_rest n p q : blend p q = p -> frames n p q = p.
Proof.
  intros H. induction n as [|n IH]; [reflexivity|].
  cbn [frames]. rewrite H. exact IH.
Qed.

Lemma frames_add n m p q : frames (n + m) p q = frames m (frames n p q) q.
Proof.
  revert p. induction n as [|n IH]; intros p; [reflexivity|].
  cbn [frames Nat.add]. apply IH.
Qed.

(** After 226 frames the coordinate rests, a little below 10: the step
    has become smaller than half the spacing of binary32 there. *)
Lemma at_rest_below_ten :
  blend (frames 226 0 10) 10 = frames 226 0 10 /\
  (frames 226 0 10 <? 10) = true.
Proof. vm_compute. split; reflexivity. Qed.

(** From 0 towards 10, in the browser's arithmetic: the coordinate never
    decreases and never exceeds 10, at any frame. *)
Lemma zero_to_ten_never_overshoots n :
  (frames n 0 10 <=? frames (S n) 0 10) = true /\
  (frames (S n) 0 10 <=? 10) = true.
Proof.
  destruct (Nat.lt_ge_cases n 226) as [H|H].
  - apply (rising_frames 226); [vm_compute; reflexivity | exact H].
  - replace n with (226 + (n - 226))%nat by lia.
    replace (S (226 + (n - 226))) with (226 + S (n - 226))%nat by lia.
    rewrite !frames_add, !(frames_at_rest _ _ _ (proj1 at_rest_below_ten)).
    vm_compute. split; reflexivity.
Qed.

End Binary64Facts.

(** * The statements at concrete inputs *)

Lemma one_particle_well_formed : well_formed one_particle.
Proof. repeat split. eexists; reflexivity. Defined.

Lemma halves_unit_draws : unit_draws halves.
Proof. intros k. cbn [halves draws]. lra. Defined.

(** C1 at particle 3 of 20: 3 < 5, the trunk. *)
Lemma banyan_region_particle_3_of_20 :
  type (fst (getBanyanPosition
               (mkTree 20 0 [] [] [] [] [] formed 0 0 None None [] [] [])
               3 halves)) = trunk.
Proof.
  apply (banyan_region_by_band
           (mkTree 20 0 [] [] [] [] [] formed 0 0 None None [] [] [])
           3 halves).
  cbn [treeCount INR]. lra.
Defined.

(** C2 on the one-particle field: from 0 towards 10, one frame gives
    0.6. *)
Lemma update_blends_one_particle :
  well_formed one_particle /\
  coordinate_after grey_hex 1 one_particle halves 0 = Some 0.6.
Proof.
  split; [exact one_particle_well_formed|].
  exact (proj1 (proj2 (update_blends_toward_target grey_hex one_particle
                         halves 0 0 10 one_particle_well_formed
                         eq_refl eq_refl)) eq_refl eq_refl).
Defined.

(** C3 at the midpoint of the range. *)
Lemma rotate_overwrites_at_midpoint :
  rotationSpeed (rotate 0.5 (set_rotationSpeed one_particle 7)) =
  (0.5 - 0.5) * 0.1.
Proof. exact (proj1 (rotate_overwrites_speed 0.5 7 one_particle)). Defined.

(** C4: [rotate(2)] is not [rotate(1)], and spins faster than any input
    of [0, 1] does. *)
Lemma rotate_2_is_not_clamped :
  rotationSpeed (rotate 2 one_particle) = 0.15 /\
  rotationSpeed (rotate 1 one_particle) = 0.05 /\
  rotationSpeed (rotate 2 one_particle) <> rotationSpeed (rotate 1 one_particle) /\
  Rabs (rotationSpeed (rotate 2 one_particle)) > 0.1 / 2.
Proof.
  unfold rotate. tree_simpl. split_and!; try lra.
  rewrite Rabs_pos_eq; lra.
Qed.

(** C4 as amended, at 2. *)
Lemma rotate_unclamped_at_2 :
  rotationSpeed (rotate 2 one_particle) = (2 - 0.5) * 0.1.
Proof. exact (proj1 (rotate_unclamped 2 one_particle)). Defined.

(** C5 on the one-particle field once dispersed. *)
Lemma form_after_disperse_one_particle :
  state (fst (form (set_state one_particle dispersed) halves)) = formed.
Proof.
  exact (proj1 (proj2 (proj2 (form_disperse_idempotent
                                (set_state one_particle dispersed) halves))
                 eq_refl eq_refl)).
Defined.

(** C6 on the tree as constructed: a frame leaves colours, sizes and
    opacities as they are. *)
Lemma constructed_tree_keeps_appearance :
  reachable grey_hex grey_hsl (fst (constructor_ grey_hex grey_hsl halves)) /\
  exists t' g',
    update grey_hex (fst (constructor_ grey_hex grey_hsl halves)) halves
      = Some (t', g') /\
    same_appearance (fst (constructor_ grey_hex grey_hsl halves)) t'.
Proof.
  split; [apply reach_new|].
  apply (transitions_touch_only_targets grey_hex grey_hsl _ halves 1).
  apply reach_new.
Defined.


(** C8 on the one-particle field, three frames after [rotate(1)]. *)
Lemma rotation_decays_one_particle :
  well_formed one_particle /\
  exists vn,
    speed_after grey_hex 3 (rotate 1 one_particle) halves = Some vn /\
    vn = rotationSpeed (rotate 1 one_particle) * 0.96 ^ 3.
Proof.
  split; [exact one_particle_well_formed|].
  destruct (proj1 (proj2 (proj2 (rotation_decays grey_hex one_particle halves
                                   1 3 one_particle_well_formed))))
    as (vn & Hrun & Hvn & _).
  exists vn. split; assumption.
Defined.

(** C9 with grey colours. *)
Lemma constructed_grey_tree_is_formed :
  state (fst (constructor_ grey_hex grey_hsl halves)) = formed.
Proof.
  exact (proj1 (constructed_tree_is_formed grey_hex grey_hsl halves)).
Defined.

(** C10 as the spec words it: the frame that [initialize] has
    [predictWebcam] process, ahead of the [on] calls of [main.js], is a
    processed frame with a hand in it, and ['move'] is emitted, yet the
    rotation velocity is not overwritten.  With the wrist at [x = 1] it
    stays 0, where [rotate(1)] would have made it 0.05. *)
Lemma first_frame_keeps_the_velocity :
  length (still_hand 1) = 21%nat /\
  lastVideoTime (@new_GestureController Page) <> 0 /\
  snd <$> predictWebcam 0 [still_hand 1] new_GestureController
            (one_particle, halves) = Some (one_particle, halves) /\
  rotationSpeed one_particle = 0 /\
  rotationSpeed (rotate 1 one_particle) = 0.05 /\
  rotationSpeed one_particle <> (1 - 0.5) * 0.1.
Proof.
  split; [reflexivity|].
  split; [unfold new_GestureController; cbn [lastVideoTime]; lra|].
  split; [exact (frame_before_listeners (-1) 0 (still_hand 1) []
                   (one_particle, halves) eq_refl)|].
  unfold rotate, one_particle. tree_simpl. split; [reflexivity|]. split; lra.
Qed.

(** C10 as amended, on the first frame of a hand held still at the
    middle: the page ends with rotation velocity 0. *)
Lemma move_follows_still_hand :
  length (still_hand 0.5) = 21%nat /\ -1 <> 0 /\
  exists t' g',
    snd <$> predictWebcam 0 [still_hand 0.5]
              (mkController (-1) (listeners (connect new_GestureController)))
              (one_particle, halves) = Some (t', g') /\
    rotationSpeed t' = (0.5 - 0.5) * 0.1.
Proof.
  split; [reflexivity|]. split; [lra|].
  destruct (move_follows_every_gesture (-1) 0 (still_hand 0.5) []
              one_particle halves eq_refl ltac:(lra))
    as (wrist & Hw & _ & (t' & g' & Hrun & _ & Hv) & _).
  exists t', g'. split; [exact Hrun|].
  assert (wrist = mkVec3 0.5 0 0) as -> by (cbn in Hw; congruence).
  exact Hv.
Defined.

(** * Further properties of the emitter *)

Section EmitterFacts.

Context {W : Type}.

Implicit Types (gc : GestureController W) (cb : Callback W).

Lemma forEach_app cbs cb data (w : W) :
  forEach (cbs ++ [cb]) data w = forEach cbs data w ≫= cb data.
Proof.
  revert w. induction cbs as [|c cbs IH]; intros w; cbn [app forEach].
  - cbn [mbind option_bind]. destruct (cb data w); reflexivity.
  - destruct (c data w) as [w'|]; cbn [mbind option_bind]; [apply IH|reflexivity].
Qed.

Lemma forEach_throws cbs1 cb cbs2 data (w w1 : W) :
  forEach cbs1 data w = Some w1 -> cb data w1 = None ->
  forEach (cbs1 ++ cb :: cbs2) data w = None.
Proof.
  revert w. induction cbs1 as [|c cbs1 IH]; intros w; cbn [app forEach].
  - intros [= ->] Hcb. rewrite Hcb. reflexivity.
  - destruct (c data w) as [w'|]; cbn [mbind option_bind]; [apply IH|discriminate].
Qed.

(** The keys of [listeners] are the three of the constructor, for
    good. *)
Lemma registered_keys gc event :
  registered gc ->
  (is_Some (listeners gc !! event) <->
   event = "fist" \/ event = "open" \/ event = "move").
Proof.
  induction 1 as [|e cb gc _ IH|time gc _ IH].
  - cbn [new_GestureController listeners]. split.
    + intros [cbs H].
      destruct (decide (event = "fist")) as [|Hf]; [auto|].
      destruct (decide (event = "open")) as [|Ho]; [auto|].
      destruct (decide (event = "move")) as [|Hm]; [auto|].
      rewrite !lookup_insert_ne, lookup_empty in H by done. discriminate.
    + intros [-> | [-> | ->]]; eexists; reflexivity.
  - unfold on. destruct (listeners gc !! e) as [cbs|] eqn:He; [|exact IH].
    cbn [listeners]. rewrite lookup_insert_is_Some. rewrite <- IH.
    split; [intros [<- | [_ H]]; [rewrite He; eauto | exact H] |].
    intros H. destruct (decide (e = event)); auto.
  - exact IH.
Qed.

End EmitterFacts.

(** X1. On a controller as the page can hold it, an event name that is
    neither one of the three of the constructor nor a name inherited
    from [Object.prototype] has no listener array: [on] under such a
    name registers nothing and returns the controller as it was, and
    [emit] of such a name calls nobody. *)
Theorem unknown_event_is_ignored {W : Type} (gc : GestureController W)
    (event : string) (cb : Callback W) (data : JSValue) (w : W) :
  registered gc ->
  event <> "fist" -> event <> "open" -> event <> "move" ->
  event ∉ Object_prototype_names ->
  on event cb gc = gc /\ emit event data gc w = Some w.
Proof.
  intros Hreg Hf Ho Hm _.
  assert (Hnone : listeners gc !! event = None).
  { apply eq_None_not_Some. rewrite (registered_keys gc event Hreg).
    intros [?|[?|?]]; contradiction. }
  unfold on, emit. rewrite Hnone. split; reflexivity.
Qed.

Lemma swipe_is_ignored :
  on "swipe" (recorder "swipe") (record_all new_GestureController)
    = record_all new_GestureController /\
  emit "swipe" undefined (record_all new_GestureController) [] = Some [].
Proof.
  apply (unknown_event_is_ignored (record_all new_GestureController)
           "swipe" (recorder "swipe") undefined []).
  - unfold record_all. repeat apply registered_on. apply registered_new.
  - discriminate.
  - discriminate.
  - discriminate.
  - unfold Object_prototype_names. rewrite !not_elem_of_cons.
    split_and!; try discriminate. apply not_elem_of_nil.
Defined.

(** X2. Registration appends: on one of the three events, [emit] after
    [on(event, cb)] runs the listeners that were there, in their order,
    and then [cb] on the state they leave; what the other events deliver
    is unchanged. *)
Theorem listeners_run_in_registration_order {W : Type}
    (gc : GestureController W) (event : string) (cb : Callback W)
    (data : JSValue) (w : W) :
  registered gc ->
  event = "fist" \/ event = "open" \/ event = "move" ->
  emit event data (on event cb gc) w = emit event data gc w ≫= cb data /\
  forall event', event' <> event ->
    emit event' data (on event cb gc) w = emit event' data gc w.
Proof.
  intros Hreg Hev.
  destruct (proj2 (registered_keys gc event Hreg) Hev) as [cbs Hcbs].
  split.
  - unfold emit. rewrite (on_registered gc event cb cbs Hcbs), Hcbs.
    apply forEach_app.
  - intros event' Hne. unfold emit. rewrite on_other by congruence.
    reflexivity.
Qed.

Lemma second_move_listener_runs_second :
  emit "move" (number 1)
    (on "move" (recorder "again") (record_all new_GestureController)) []
  = Some [("move", number 1); ("again", number 1)].
Proof.
  rewrite (proj1 (listeners_run_in_registration_order
                    (record_all new_GestureController) "move"
                    (recorder "again") (number 1) []
                    ltac:(unfold record_all; repeat apply registered_on;
                          apply registered_new)
                    ltac:(auto))).
  reflexivity.
Defined.

(** X3. A listener that throws ends the [emit]: the listeners after it
    are not called, and the exception leaves [emit]. *)
Theorem throwing_listener_ends_emit {W : Type} (gc : GestureController W)
    (event : string) (before after : list (Callback W)) (cb : Callback W)
    (data : JSValue) (w w1 : W) :
  listeners gc !! event = Some (before ++ cb :: after) ->
  forEach before data w = Some w1 ->
  cb data w1 = None ->
  emit event data gc w = None.
Proof.
  intros Hl Hb Hcb. unfold emit. rewrite Hl.
  exact (forEach_throws before cb after data w w1 Hb Hcb).
Qed.

Lemma throwing_move_listener :
  emit "move" (number 1)
    (on "move" (recorder "late")
       (on "move" (fun _ _ => None) new_GestureController)) [] = None.
Proof.
  apply (throwing_listener_ends_emit _ "move" [] [recorder "late"]
           (fun _ _ => None) (number 1) [] []); reflexivity.
Defined.

(** With all 21 landmarks there, [processGestures] is its two
    [emit]s. *)
Lemma processGestures_emits {W : Type} (gc : GestureController W) hand (w : W) :
  length hand = 21%nat ->
  exists wrist t8 t12 t16 t20,
    hand !! 0%nat = Some wrist /\
    hand !! 8%nat = Some t8 /\ hand !! 12%nat = Some t12 /\
    hand !! 16%nat = Some t16 /\ hand !! 20%nat = Some t20 /\
    fingertips hand = [t8; t12; t16; t20] /\
    processGestures hand gc w =
      w' ← (if Rlt_dec (avgDist wrist (fingertips hand)) 0.2
            then emit "fist" undefined gc w
            else if Rlt_dec 0.3 (avgDist wrist (fingertips hand))
                 then emit "open" undefined gc w
                 else Some w);
      emit "move" (number (vx wrist)) gc w'.
Proof.
  intros Hlen.
  do 21 (destruct hand as [|? hand]; [discriminate Hlen|]).
  match goal with
  | |- context [(?v :: ?h) !! 0%nat] =>
      assert (Htips : mapM (fun i : nat => (v :: h) !! i) [8; 12; 16; 20]%nat
                      = Some (fingertips (v :: h))) by reflexivity
  end.
  eexists _, _, _, _, _. split_and!; reflexivity.
Qed.

Lemma on_lastVideoTime {W : Type} (gc : GestureController W) event cb :
  lastVideoTime (on event cb gc) = lastVideoTime gc.
Proof. unfold on. destruct (listeners gc !! event); reflexivity. Qed.

(** The mean of four distances. *)
Lemma avgDist_four wrist t8 t12 t16 t20 :
  avgDist wrist [t8; t12; t16; t20] =
  (tip_distance t8 wrist + tip_distance t12 wrist +
   tip_distance t16 wrist + tip_distance t20 wrist) / 4.
Proof. unfold avgDist. cbn [foldl]. lra. Qed.

(** X4. A gesture listener that throws takes the frame with it: on a
    frame classified as a fist, when the ['fist'] listeners throw,
    [processGestures] throws before ['move'] is emitted, and so does
    [predictWebcam], whatever is registered on ['move']. *)
Theorem throwing_fist_listener_stops_the_frame {W : Type}
    (gc : GestureController W) (time : R) (hand : list Vec3)
    (others : list (list Vec3)) (wrist : Vec3) (w : W) :
  length hand = 21%nat ->
  hand !! 0%nat = Some wrist ->
  avgDist wrist (fingertips hand) < 0.2 ->
  lastVideoTime gc <> time ->
  emit "fist" undefined gc w = None ->
  processGestures hand gc w = None /\
  predictWebcam time (hand :: others) gc w = None.
Proof.
  intros Hlen Hw Hd Hne Hthrow.
  assert (Hpg : forall gc', listeners gc' = listeners gc ->
                            processGestures hand gc' w = None).
  { intros gc' Hl.
    destruct (processGestures_emits gc' hand w Hlen)
      as (wrist' & t8 & t12 & t16 & t20 & Hw' & _ & _ & _ & _ & _ & ->).
    assert (wrist' = wrist) as -> by congruence.
    destruct (Rlt_dec _ 0.2); [|contradiction].
    unfold emit in *. rewrite Hl, Hthrow. reflexivity. }
  split; [apply Hpg; reflexivity|].
  unfold predictWebcam. destruct (Req_dec_T _ _); [contradiction|].
  rewrite Hpg by reflexivity. reflexivity.
Qed.

Lemma throwing_fist_listener_on_still_hand :
  predictWebcam 0 [still_hand 0.5]
    (on "move" (recorder "move")
       (on "fist" (fun _ _ => None) new_GestureController)) [] = None.
Proof.
  apply (throwing_fist_listener_stops_the_frame _ 0 (still_hand 0.5) []
           (mkVec3 0.5 0 0) []).
  - reflexivity.
  - reflexivity.
  - change (fingertips (still_hand 0.5)) with
      [mkVec3 0.5 0 0; mkVec3 0.5 0 0; mkVec3 0.5 0 0; mkVec3 0.5 0 0].
    rewrite avgDist_four. unfold tip_distance, Math_sqrt, Math_pow.
    cbn [vx vy vz].
    replace ((0.5 - 0.5) ^ 2 + (0 - 0) ^ 2 + (0 - 0) ^ 2) with 0 by lra.
    rewrite sqrt_0. lra.
  - rewrite !on_lastVideoTime. cbn [new_GestureController lastVideoTime]. lra.
  - reflexivity.
Defined.

(** X5. A hand with fewer than 21 landmarks makes [processGestures]
    throw before anything is emitted: the tip at index 20 is
    [undefined], and no listener is called. *)
Theorem missing_landmark_throws {W : Type} (gc : GestureController W)
    (hand : list Vec3) (w : W) :
  (length hand < 21)%nat -> processGestures hand gc w = None.
Proof.
  intros Hlen. unfold processGestures.
  assert (H20 : hand !! 20%nat = None) by (apply lookup_ge_None_2; lia).
  destruct (hand !! 0%nat) as [wrist|]; [|reflexivity].
  cbn [mbind option_bind mapM mret option_ret].
  destruct (hand !! 8%nat); [|reflexivity].
  destruct (hand !! 12%nat); [|reflexivity].
  destruct (hand !! 16%nat); [|reflexivity].
  cbn [mbind option_bind]. rewrite H20. reflexivity.
Qed.

Lemma twenty_landmarks_throw :
  processGestures (replicate 20 (mkVec3 0.5 0 0))
    (record_all new_GestureController) [] = None.
Proof.
  apply missing_landmark_throws. cbn. lia.
Defined.

(** X6. A frame is processed once: after [predictWebcam] has run at
    some video time, a further run at the same time does nothing,
    whatever the detector would return for it. *)
Theorem same_frame_is_processed_once {W : Type} (gc gc' : GestureController W)
    (time : R) (results results' : list (list Vec3)) (w w' : W) :
  predictWebcam time results gc w = Some (gc', w') ->
  lastVideoTime gc' = time /\
  listeners gc' = listeners gc /\
  predictWebcam time results' gc' w' = Some (gc', w').
Proof.
  unfold predictWebcam at 1.
  destruct (Req_dec_T (lastVideoTime gc) time) as [E|E].
  - intros [= <- <-]. split_and!; auto.
    unfold predictWebcam. destruct (Req_dec_T _ _); [reflexivity|contradiction].
  - assert (Hgc : forall o : option W,
               (o ≫= fun w0 => Some (mkController time (listeners gc), w0))
               = Some (gc', w') ->
               gc' = mkController time (listeners gc)).
    { intros [w0|]; cbn; [intros [= <- _]; reflexivity | discriminate]. }
    intros H.
    assert (gc' = mkController time (listeners gc)) as ->.
    { destruct results as [|hand others]; [injection H as <- _; reflexivity|].
      exact (Hgc _ H). }
    cbn [lastVideoTime listeners]. split_and!; auto.
    unfold predictWebcam. cbn [lastVideoTime].
    destruct (Req_dec_T time time); [reflexivity|contradiction].
Qed.

Lemma still_hand_frame_processed_once :
  exists tr,
    predictWebcam 0 [still_hand 0.5]
      (mkController (-1) (listeners (record_all new_GestureController))) []
    = Some (mkController 0 (listeners (record_all new_GestureController)), tr) /\
    predictWebcam 0 [still_hand 0.9]
      (mkController 0 (listeners (record_all new_GestureController))) tr
    = Some (mkController 0 (listeners (record_all new_GestureController)), tr).
Proof.
  destruct (predictWebcam 0 [still_hand 0.5]
              (mkController (-1)
                 (listeners (record_all new_GestureController))) [])
    as [[gc' tr]|] eqn:Hrun.
  - destruct (same_frame_is_processed_once _ _ _ _ [still_hand 0.9] _ _ Hrun)
      as (Ht & Hl & Hagain).
    assert (gc' = mkController 0
                    (listeners (record_all new_GestureController))) as ->.
    { destruct gc'; cbn in *; subst; reflexivity. }
    exists tr. split; [reflexivity | exact Hagain].
  - exfalso. unfold predictWebcam in Hrun. cbn [lastVideoTime listeners] in Hrun.
    destruct (Req_dec_T (-1) 0); [lra|].
    destruct (processGestures_emits
                (mkController 0 (listeners (record_all new_GestureController)))
                (still_hand 0.5) [] eq_refl)
      as (wr & ? & ? & ? & ? & _ & _ & _ & _ & _ & _ & Hpg).
    rewrite Hpg in Hrun.
    destruct (one_listener_each (recorder "fist") (recorder "open")
                (recorder "move")) as (Rf & Ro & Rm).
    unfold emit in Hrun. cbn [listeners] in Hrun.
    fold (record_all (@new_GestureController (list (string * JSValue)))) in Rf, Ro, Rm.
    rewrite Rf, Ro, Rm in Hrun.
    destruct (Rlt_dec _ 0.2); [|destruct (Rlt_dec 0.3 _)]; discriminate.
Defined.

(** What the recording controller delivers for one [emit]. *)
Lemma emit_recorded event data (tr : Trace) time :
  event = "fist" \/ event = "open" \/ event = "move" ->
  emit event data
    (mkController time (listeners (record_all new_GestureController))) tr
  = Some (tr ++ [(event, data)]).
Proof.
  destruct (one_listener_each (recorder "fist") (recorder "open")
              (recorder "move")) as (Rf & Ro & Rm).
  unfold emit, record_all. cbn [listeners].
  intros [-> | [-> | ->]]; rewrite ?Rf, ?Ro, ?Rm, forEach_single;
    reflexivity.
Qed.

(** X7. The gesture is decided by how far the four fingertips are from
    the wrist (numbers as reals; the distances are kept [rounding] away
    from the two thresholds, so that the binary64 average falls on the
    same side).  When each is nearer than 0.2 the frame delivers
    ['fist'] and then ['move']; when each is farther than 0.3, ['open']
    and then ['move']; when each lies between 0.2 and 0.3, ['move']
    alone. *)
Theorem gesture_by_fingertip_distance (time : R) (hand : list Vec3)
    (wrist t8 t12 t16 t20 : Vec3) :
  length hand = 21%nat ->
  hand !! 0%nat = Some wrist ->
  hand !! 8%nat = Some t8 -> hand !! 12%nat = Some t12 ->
  hand !! 16%nat = Some t16 -> hand !! 20%nat = Some t20 ->
  let gc := mkController time (listeners (record_all new_GestureController)) in
  let far tip := tip_distance tip wrist in
  let near := 0.2 - rounding in
  let wide := 0.3 + rounding in
  (far t8 <= near /\ far t12 <= near /\ far t16 <= near /\ far t20 <= near ->
   processGestures hand gc [] =
     Some [("fist", undefined); ("move", number (vx wrist))]) /\
  (wide <= far t8 /\ wide <= far t12 /\ wide <= far t16 /\ wide <= far t20 ->
   processGestures hand gc [] =
     Some [("open", undefined); ("move", number (vx wrist))]) /\
  (0.2 + rounding <= far t8 <= 0.3 - rounding /\
   0.2 + rounding <= far t12 <= 0.3 - rounding /\
   0.2 + rounding <= far t16 <= 0.3 - rounding /\
   0.2 + rounding <= far t20 <= 0.3 - rounding ->
   processGestures hand gc [] = Some [("move", number (vx wrist))]).
Proof.
  intros Hlen Hw H8 H12 H16 H20 gc far near wide.
  destruct (processGestures_emits gc hand [] Hlen)
    as (wrist' & u8 & u12 & u16 & u20 & Hw' & H8' & H12' & H16' & H20'
        & Htips & Hpg).
  assert (wrist' = wrist) as -> by congruence.
  assert (u8 = t8) as -> by congruence.
  assert (u12 = t12) as -> by congruence.
  assert (u16 = t16) as -> by congruence.
  assert (u20 = t20) as -> by congruence.
  rewrite Hpg, Htips, avgDist_four. fold (far t8) (far t12) (far t16) (far t20).
  clear Hpg. subst gc near wide. unfold rounding.
  split_and!; intros (F8 & F12 & F16 & F20);
    destruct (Rlt_dec _ 0.2); try lra;
    try (destruct (Rlt_dec 0.3 _); try lra);
    rewrite ?emit_recorded by auto; cbn [mbind option_bind];
    rewrite ?emit_recorded by auto; reflexivity.
Qed.

Lemma still_hand_is_a_fist :
  processGestures (still_hand 0.5)
    (mkController 0 (listeners (record_all new_GestureController))) []
  = Some [("fist", undefined); ("move", number 0.5)].
Proof.
  apply (proj1 (gesture_by_fingertip_distance 0 (still_hand 0.5)
                  (mkVec3 0.5 0 0) (mkVec3 0.5 0 0) (mkVec3 0.5 0 0)
                  (mkVec3 0.5 0 0) (mkVec3 0.5 0 0)
                  eq_refl eq_refl eq_refl eq_refl eq_refl eq_refl)).
  assert (H : tip_distance (mkVec3 0.5 0 0) (mkVec3 0.5 0 0)
               <= 0.2 - rounding).
  { unfold tip_distance, Math_sqrt, Math_pow, rounding. cbn [vx vy vz].
    replace ((0.5 - 0.5) ^ 2 + (0 - 0) ^ 2 + (0 - 0) ^ 2) with 0 by lra.
    rewrite sqrt_0. lra. }
  auto.
Defined.

Lemma tip_distance_shift d tip wrist :
  tip_distance (shift d tip) (shift d wrist) = tip_distance tip wrist.
Proof.
  unfold tip_distance, shift, Math_pow. cbn [vx vy vz]. f_equal. ring.
Qed.

(** X8. The gesture does not depend on where the hand is in the frame:
    moving every landmark by the same vector leaves the ['fist'] or
    ['open'] decision as it was and moves the [x] that ['move'] carries
    by that vector's [x]. *)
Theorem gesture_is_translation_invariant (time : R) (hand : list Vec3)
    (d : Vec3) :
  length hand = 21%nat ->
  let gc := mkController time (listeners (record_all new_GestureController)) in
  exists gesture x,
    processGestures hand gc [] = Some (gesture ++ [("move", number x)]) /\
    processGestures (shift d <$> hand) gc [] =
      Some (gesture ++ [("move", number (x + vx d))]).
Proof.
  intros Hlen gc.
  assert (Hlen' : length (shift d <$> hand) = 21%nat)
    by (rewrite length_fmap; exact Hlen).
  destruct (processGestures_emits gc hand [] Hlen)
    as (wrist & t8 & t12 & t16 & t20 & Hw & H8 & H12 & H16 & H20 & Htips & Hpg).
  destruct (processGestures_emits gc (shift d <$> hand) [] Hlen')
    as (wrist' & u8 & u12 & u16 & u20 & Hw' & H8' & H12' & H16' & H20'
        & Htips' & Hpg').
  rewrite list_lookup_fmap in Hw', H8', H12', H16', H20'.
  rewrite Hw in Hw'. rewrite H8 in H8'. rewrite H12 in H12'.
  rewrite H16 in H16'. rewrite H20 in H20'.
  cbn [fmap option_fmap option_map] in Hw', H8', H12', H16', H20'.
  injection Hw' as <-. injection H8' as <-. injection H12' as <-.
  injection H16' as <-. injection H20' as <-.
  rewrite Hpg, Hpg', Htips, Htips', !avgDist_four, !tip_distance_shift.
  clear Hpg Hpg'. subst gc. cbn [shift vx].
  destruct (Rlt_dec _ 0.2); [|destruct (Rlt_dec 0.3 _)].
  - exists [("fist", undefined)], (vx wrist).
    rewrite ?emit_recorded by auto. cbn [mbind option_bind].
    rewrite ?emit_recorded by auto. split; reflexivity.
  - exists [("open", undefined)], (vx wrist).
    rewrite ?emit_recorded by auto. cbn [mbind option_bind].
    rewrite ?emit_recorded by auto. split; reflexivity.
  - exists [], (vx wrist). cbn [mbind option_bind].
    rewrite ?emit_recorded by auto. split; reflexivity.
Qed.

Lemma still_hand_moved_right :
  exists gesture x,
    processGestures (still_hand 0.5)
      (mkController 0 (listeners (record_all new_GestureController))) []
    = Some (gesture ++ [("move", number x)]) /\
    processGestures (shift (mkVec3 0.25 0 0) <$> still_hand 0.5)
      (mkController 0 (listeners (record_all new_GestureController))) []
    = Some (gesture ++ [("move", number (x + 0.25))]).
Proof.
  exact (gesture_is_translation_invariant 0 (still_hand 0.5)
           (mkVec3 0.25 0 0) eq_refl).
Defined.

(** * Further properties of the page *)

Lemma form_state t g : state (fst (form t g)) = formed.
Proof.
  destruct (state t) eqn:Hs.
  - unfold form. rewrite Hs. exact Hs.
  - destruct (form_runs t g Hs) as (v & -> & _). reflexivity.
Qed.

Lemma disperse_state t g : state (fst (disperse t g)) = dispersed.
Proof.
  destruct (state t) eqn:Hs.
  - destruct (disperse_runs t g Hs) as (v & -> & _). reflexivity.
  - unfold disperse. rewrite Hs. exact Hs.
Qed.

(** X9. A camera frame moves no particle.  With the listeners of
    [main.js], a frame with a hand in it never throws; it leaves the
    current positions, the colours, sizes and opacities and the
    orientation as they were, and the state flag names the gesture seen:
    ['formed'] after a fist, ['dispersed'] after an open hand, unchanged
    in between. *)
Theorem camera_frame_moves_no_particle
    (last time : R) (hand : list Vec3) (others : list (list Vec3))
    (t : ParticleTree) (g : RNG) :
  length hand = 21%nat ->
  last <> time ->
  exists wrist t' g',
    hand !! 0%nat = Some wrist /\
    predictWebcam time (hand :: others)
      (mkController last (listeners (connect new_GestureController))) (t, g)
    = Some (mkController time (listeners (connect new_GestureController)),
            (t', g')) /\
    treePositions t' = treePositions t /\
    same_appearance t t' /\
    orientation t' = orientation t /\
    state t' =
      (if Rlt_dec (avgDist wrist (fingertips hand)) 0.2 then formed
       else if Rlt_dec 0.3 (avgDist wrist (fingertips hand)) then dispersed
       else state t).
Proof.
  intros Hlen Hne.
  destruct (one_listener_each fist_listener open_listener move_listener)
    as (Pf & Po & Pm).
  destruct (processGestures_calls _ _ _
              (mkController time (listeners (connect new_GestureController)))
              hand (t, g) Pf Po Pm Hlen) as (wrist & Hw & Hpage).
  unfold predictWebcam. cbn [lastVideoTime listeners].
  destruct (Req_dec_T last time) as [E|_]; [contradiction|].
  rewrite Hpage. clear Hpage.
  unfold fist_listener, open_listener, move_listener. cbn [fst snd].
  exists wrist.
  destruct (Rlt_dec _ 0.2); [|destruct (Rlt_dec 0.3 _)];
    cbn [mbind option_bind fst snd].
  - pose proof (form_state t g) as Hs.
    destruct (form_frame t g) as (s & v & Hf & _).
    destruct (form t g) as [t1 g1]. cbn [fst] in *. subst t1.
    eexists _, _. split; [exact Hw|]. split; [reflexivity|].
    unfold rotate, same_appearance, orientation in *. tree_simpl. auto.
  - pose proof (disperse_state t g) as Hs.
    destruct (disperse_frame t g) as (s & v & Hf & _).
    destruct (disperse t g) as [t1 g1]. cbn [fst] in *. subst t1.
    eexists _, _. split; [exact Hw|]. split; [reflexivity|].
    unfold rotate, same_appearance, orientation in *. tree_simpl. auto.
  - eexists _, _. split; [exact Hw|]. split; [reflexivity|].
    unfold rotate, same_appearance, orientation. tree_simpl. auto.
Qed.

Lemma still_hand_frame_moves_no_particle :
  exists t' g',
    predictWebcam 0 [still_hand 0.5]
      (mkController (-1) (listeners (connect new_GestureController)))
      (one_particle, halves)
    = Some (mkController 0 (listeners (connect new_GestureController)),
            (t', g')) /\
    treePositions t' = treePositions one_particle.
Proof.
  destruct (camera_frame_moves_no_particle (-1) 0 (still_hand 0.5) []
              one_particle halves eq_refl ltac:(lra))
    as (wrist & t' & g' & _ & Hrun & Hpos & _).
  exists t', g'. split; assumption.
Defined.

(** * Further properties of the generator *)

Lemma polar_norm r a :
  0 <= r -> sqrt (cos a * r * (cos a * r) + sin a * r * (sin a * r)) = r.
Proof.
  intros Hr. pose proof (sin2_cos2 a) as H. unfold Rsqr in H.
  replace (cos a * r * (cos a * r) + sin a * r * (sin a * r))
    with (r * r * (sin a * sin a + cos a * cos a)) by ring.
  rewrite H, Rmult_1_r. apply sqrt_square, Hr.
Qed.

(** X10. The trunk tapers (numbers as reals; the distance is bounded
    up to [rounding], which covers the last place of the binary64
    result).  A trunk particle sits at a height [y] in [-3, 1) and at a
    distance from the axis that falls linearly with the height, from 1.8
    at the base to 0.3 at the top, plus a jitter of at most 0.05. *)
Theorem trunk_tapers (t : ParticleTree) (i : nat) (g : RNG) :
  unit_draws g ->
  INR i < INR (treeCount t) * 0.25 ->
  let p := fst (getBanyanPosition t i g) in
  let taper := 0.3 + 1.5 * (1 - (by_ p + 3) / 4) in
  type p = trunk /\
  -3 <= by_ p < 1 /\
  taper - rounding <= horizontal p <= taper + 0.05 + rounding.
Proof.
  intros Hg Hi p taper. subst taper p.
  unfold getBanyanPosition, bind, Math_random, ret.
  destruct (Rlt_dec (INR i) (INR (treeCount t) * 0.25)); [|contradiction].
  cbn [fst snd draws cursor by_ bx bz type horizontal].
  unfold horizontal, Math_sqrt, Math_cos, Math_sin.
  cbn [bx bz].
  pose proof (Hg (S (cursor g))) as H1.
  pose proof (Hg (S (S (cursor g)))) as H2.
  set (u1 := draws g (S (cursor g))) in *.
  set (u2 := draws g (S (S (cursor g)))) in *.
  rewrite polar_norm by lra.
  split; [reflexivity|]. unfold rounding. lra.
Qed.

Lemma trunk_tapers_at_halves :
  -3 <= by_ (fst (getBanyanPosition one_particle 0 halves)) < 1.
Proof.
  apply (trunk_tapers one_particle 0 halves halves_unit_draws).
  cbn [one_particle treeCount INR]. lra.
Defined.



(** X12. The leaves lie on a flattened half shell (numbers as reals;
    the bounds are closed and the shell is met up to [rounding], which
    covers the last place of the binary64 results).  Undoing the stretch
    (1.5 across, 0.6 upwards, lifted by 0.5), a leaf particle is at a
    distance [r] in [3.5, 4] from the origin; it lies on or above the
    height 0.5 and inside the box of half-width 6 and height 2.9. *)
Theorem leaves_on_a_half_shell (t : ParticleTree) (i : nat) (g : RNG) :
  unit_draws g ->
  INR (treeCount t) * 0.35 <= INR i ->
  let p := fst (getBanyanPosition t i g) in
  type p = leaves /\
  (exists r, 3.5 <= r <= 4 /\
     Rabs ((bx p / 1.5) ^ 2 + ((by_ p - 0.5) / 0.6) ^ 2 + (bz p / 1.5) ^ 2
           - r ^ 2) <= rounding) /\
  0.5 <= by_ p <= 2.9 + rounding /\
  -6 <= bx p <= 6 /\
  -6 <= bz p <= 6.
Proof.
  intros Hg Hi p. subst p.
  pose proof (pos_INR (treeCount t)) as HN.
  unfold getBanyanPosition, bind, Math_random, ret.
  destruct (Rlt_dec (INR i) (INR (treeCount t) * 0.25)); [lra|].
  destruct (Rlt_dec (INR i) (INR (treeCount t) * 0.35)); [lra|].
  cbn [fst snd draws cursor by_ bx bz type].
  unfold Math_cos, Math_sin, Math_abs.
  pose proof (Hg (S (S (S (cursor g))))) as H3.
  set (th := draws g (S (cursor g)) * Math_PI * 2).
  set (ph := Math_acos (2 * draws g (S (S (cursor g))) - 1)).
  set (r := 3.5 + draws g (S (S (S (cursor g)))) * 0.5) in *.
  assert (Hr : 3.5 <= r < 4) by (subst r; lra).
  pose proof (sin2_cos2 th) as Ht. pose proof (sin2_cos2 ph) as Hp.
  unfold Rsqr in Ht, Hp.
  set (a := r * sin ph * cos th) in *.
  set (b := r * sin ph * sin th) in *.
  set (c := r * cos ph) in *.
  assert (Hsum : a * a + b * b + c * c = r * r).
  { subst a b c.
    replace (r * sin ph * cos th * (r * sin ph * cos th) +
             r * sin ph * sin th * (r * sin ph * sin th) +
             r * cos ph * (r * cos ph))
      with (r * r * (sin ph * sin ph * (sin th * sin th + cos th * cos th)
                     + cos ph * cos ph)) by ring.
    rewrite Ht, Rmult_1_r, Hp. ring. }
  assert (Habs : Rabs b * Rabs b = b * b).
  { unfold Rabs. destruct (Rcase_abs b); ring. }
  pose proof (Rabs_pos b) as Hb0.
  clearbody a b c r. unfold rounding.
  split; [reflexivity|]. split; [|split_and!; nra].
  exists r. split; [lra|].
  replace (a * 1.5 / 1.5) with a by lra.
  replace ((Rabs b * 0.6 + 0.5 - 0.5) / 0.6) with (Rabs b) by lra.
  replace (c * 1.5 / 1.5) with c by lra.
  replace (a ^ 2 + Rabs b ^ 2 + c ^ 2 - r ^ 2)
    with ((a * a + Rabs b * Rabs b + c * c) - r * r) by ring.
  rewrite Habs, Hsum.
  replace (r * r - r * r) with 0 by ring. rewrite Rabs_R0. lra.
Qed.

Lemma leaves_on_a_half_shell_at_halves :
  0.5 <= by_ (fst (getBanyanPosition
                     (mkTree 10 0 [] [] [] [] [] formed 0 0 None None [] [] [])
                     5 halves)) <= 2.9 + rounding.
Proof.
  apply (leaves_on_a_half_shell
           (mkTree 10 0 [] [] [] [] [] formed 0 0 None None [] [] [])
           5 halves halves_unit_draws).
  cbn [treeCount INR]. lra.
Defined.

(** * Further properties of the field *)

(** ** Draws *)

Lemma unit_draws_source g g' : draws g' = draws g -> unit_draws g -> unit_draws g'.
Proof. unfold unit_draws. intros -> H. exact H. Qed.

Lemma banyan_source t i g : draws (snd (getBanyanPosition t i g)) = draws g.
Proof. rewrite banyan_draws. reflexivity. Qed.

Lemma dispersed_source g : draws (snd (getDispersedPosition g)) = draws g.
Proof. rewrite dispersed_draws. reflexivity. Qed.

Lemma resetMeteor_draws hex randomStart g :
  snd (resetMeteor hex randomStart g) = mkRNG (draws g) (cursor g + 7).
Proof.
  unfold resetMeteor, bind, Math_random, ret. cbn [snd draws cursor].
  f_equal. lia.
Qed.

Lemma appearance_source hex hsl ty c g :
  draws (snd (appearance hex hsl ty c g)) = draws g.
Proof.
  unfold appearance, bind, Math_random, ret.
  destruct ty; cbn [draws cursor];
    repeat match goal with
           | |- context [Rlt_dec ?a ?b] => destruct (Rlt_dec a b)
           end; reflexivity.
Qed.

(** ** Where the generated points lie *)

Lemma on_circle r a :
  0 <= r -> - r <= cos a * r <= r /\ - r <= sin a * r <= r.
Proof.
  intros Hr. pose proof (sin2_cos2 a) as H. unfold Rsqr in H.
  pose proof (COS_bound a) as [Hc1 Hc2]. pose proof (SIN_bound a) as [Hs1 Hs2].
  split; split; nra.
Qed.

Lemma banyan_bounded t i g :
  unit_draws g ->
  let p := fst (getBanyanPosition t i g) in
  -6 < bx p < 6 /\ -3 <= by_ p < 2.9 /\ -6 < bz p < 6.
Proof.
  intros Hg p. subst p.
  pose proof (Hg (S (cursor g))) as H1.
  pose proof (Hg (S (S (cursor g)))) as H2.
  pose proof (Hg (S (S (S (cursor g))))) as H3.
  unfold getBanyanPosition, bind, Math_random, ret.
  destruct (Rlt_dec (INR i) (INR (treeCount t) * 0.25));
    [|destruct (Rlt_dec (INR i) (INR (treeCount t) * 0.35))];
    cbn [fst snd draws cursor by_ bx bz]; unfold Math_cos, Math_sin, Math_abs.
  - match goal with
    | |- context [cos ?a * ?r] => destruct (on_circle r a) as [Hx Hz]; [lra|]
    end.
    lra.
  - match goal with
    | |- context [cos ?a * ?r] => destruct (on_circle r a) as [Hx Hz]; [lra|]
    end.
    lra.
  - set (th := draws g (S (cursor g)) * Math_PI * 2).
    set (ph := Math_acos (2 * draws g (S (S (cursor g))) - 1)).
    set (r := 3.5 + draws g (S (S (S (cursor g)))) * 0.5) in *.
    assert (Hr : 3.5 <= r < 4) by (subst r; lra).
    pose proof (COS_bound th) as [? ?]. pose proof (SIN_bound th) as [? ?].
    destruct (on_circle r ph) as [Hc Hs]; [lra|].
    set (s := sin ph * r) in *. set (c := cos ph * r) in *.
    replace (r * sin ph * cos th * 1.5) with (s * cos th * 1.5) by (subst s; ring).
    replace (r * sin ph * sin th) with (s * sin th) by (subst s; ring).
    replace (r * cos ph * 1.5) with (c * 1.5) by (subst c; ring).
    clearbody s c r.
    assert (Hab : 0 <= Rabs (s * sin th) <= r).
    { split; [apply Rabs_pos|]. apply Rabs_le. nra. }
    split_and!; nra.
Qed.

Lemma dispersed_bounded g :
  unit_draws g ->
  let p := fst (getDispersedPosition g) in
  -10 <= vx p <= 10 /\ -10 <= vy p <= 10 /\ -10 <= vz p <= 10.
Proof.
  intros Hg p. subst p.
  unfold getDispersedPosition, bind, Math_random, ret.
  cbn [fst snd draws cursor vx vy vz]. unfold Math_sin, Math_cos.
  pose proof (cbrt_unit _ (Hg (cursor g))) as Hc.
  set (r := 10 * Math_cbrt (draws g (cursor g))) in *.
  set (th := draws g (S (cursor g)) * 2 * Math_PI).
  set (ph := Math_acos (2 * draws g (S (S (cursor g))) - 1)).
  assert (Hr : 0 <= r <= 10) by (subst r; lra).
  pose proof (COS_bound th) as [? ?]. pose proof (SIN_bound th) as [? ?].
  destruct (on_circle r ph) as [Hcs Hsn]; [lra|].
  set (s := sin ph * r) in *. set (c := cos ph * r) in *.
  replace (r * sin ph * cos th) with (s * cos th) by (subst s; ring).
  replace (r * sin ph * sin th) with (s * sin th) by (subst s; ring).
  replace (r * cos ph) with c by (subst c; ring).
  clearbody s c r. split_and!; nra.
Qed.

(** ** Buffers within a box *)

Lemma within_store3 b a i x y z :
  within b a -> - b <= x <= b -> - b <= y <= b -> - b <= z <= b ->
  within b (store3 a i x y z).
Proof.
  unfold within, store3. intros Ha Hx Hy Hz.
  repeat apply Forall_insert; assumption.
Qed.

Lemma within_zeros b n : 0 <= b -> within b (new_Float32Array n).
Proof.
  intros Hb. unfold within, new_Float32Array. apply Forall_replicate. lra.
Qed.

Lemma form_within t g :
  unit_draws g -> within 10 (treeTargetPositions t) ->
  within 10 (treeTargetPositions (fst (form t g))).
Proof.
  intros Hg Hw. unfold form. destruct (state t); [exact Hw|].
  pose proof (for_rand_invariant
                (fun _ t' g' => unit_draws g' /\ within 10 (treeTargetPositions t'))
                form_body (treeCount (set_state t formed)) 0
                (set_state t formed) g) as H.
  apply H; [|split; assumption].
  intros i t' g' _ [Hg' Hw']. rewrite form_body_stores. cbn [fst snd].
  split; [exact (unit_draws_source g' _ eq_refl Hg')|].
  tree_simpl. destruct (banyan_bounded t' i g' Hg') as (Hx & Hy & Hz).
  apply within_store3; [exact Hw' | lra ..].
Qed.

Lemma disperse_within t g :
  unit_draws g -> within 10 (treeTargetPositions t) ->
  within 10 (treeTargetPositions (fst (disperse t g))).
Proof.
  intros Hg Hw. unfold disperse. destruct (state t); [|exact Hw].
  pose proof (for_rand_invariant
                (fun _ t' g' => unit_draws g' /\ within 10 (treeTargetPositions t'))
                disperse_body (treeCount (set_state t dispersed)) 0
                (set_state t dispersed) g) as H.
  apply H; [|split; assumption].
  intros i t' g' _ [Hg' Hw']. rewrite disperse_body_stores. cbn [fst snd].
  split; [exact (unit_draws_source g' _ eq_refl Hg')|].
  tree_simpl. destruct (dispersed_bounded g' Hg') as (Hx & Hy & Hz).
  apply within_store3; assumption.
Qed.

Section FieldFacts.

Variable hex : Z -> Color.
Variable hsl : R -> R -> R -> Color.

Lemma fairly_reachable_reachable t :
  fairly_reachable hex hsl t -> reachable hex hsl t.
Proof.
  induction 1; [apply reach_new | apply reach_form | apply reach_disperse
               | apply reach_rotate | eapply reach_update]; eassumption.
Qed.

Lemma initParticles_within t g :
  unit_draws g ->
  within 10 (treePositions t) -> within 10 (treeTargetPositions t) ->
  let t' := fst (initParticles hex hsl t g) in
  within 10 (treePositions t') /\ within 10 (treeTargetPositions t') /\
  unit_draws (snd (initParticles hex hsl t g)).
Proof.
  intros Hg Hp Hq. unfold initParticles, bind, ret.
  pose proof (for_rand_invariant
                (fun _ (s : ParticleTree * Color) g' =>
                   unit_draws g' /\ within 10 (treePositions (fst s)) /\
                   within 10 (treeTargetPositions (fst s)))
                (initParticles_body hex hsl) (treeCount t) 0
                (t, new_Color) g) as H.
  destruct (for_rand _ _ _ _ _) as [[t1 c1] g1]. tree_simpl.
  destruct H as (Hg1 & Hp1 & Hq1); [|auto|auto].
  intros i [t2 c2] g2 _ (Hg2 & Hp2 & Hq2).
  unfold initParticles_body, bind, ret.
  pose proof (banyan_bounded t2 i g2 Hg2) as (Hx & Hy & Hz).
  pose proof (banyan_source t2 i g2) as Hs.
  destruct (getBanyanPosition t2 i g2) as [p g3]. cbn [fst snd] in *.
  pose proof (appearance_source hex hsl (type p) c2 g3) as Hs'.
  destruct (appearance _ _ _ _ _) as [[[c sz] op] g4]. tree_simpl.
  split_and!.
  - apply (unit_draws_source g2); [congruence | exact Hg2].
  - apply within_store3; [exact Hp2 | lra ..].
  - apply within_store3; [exact Hq2 | lra ..].
Qed.

Lemma constructor_within g :
  unit_draws g ->
  let t := fst (constructor_ hex hsl g) in
  within 10 (treePositions t) /\ within 10 (treeTargetPositions t).
Proof.
  intros Hg. unfold constructor_, bind. generalize (Z.to_nat 20000). intros N.
  match goal with
  | |- context [initParticles hex hsl ?t0 g] =>
      pose proof (initParticles_within t0 g Hg) as H; set (t0' := t0) in *
  end.
  destruct (initParticles hex hsl t0' g) as [t1 g1]. tree_simpl.
  destruct H as (Hp & Hq & _);
    [subst t0'; tree_simpl; apply within_zeros; lra .. |].
  destruct (initMeteors_spec hex t1 g1) as (_ & ->). tree_simpl. auto.
Qed.

Lemma update_within t g t' g' :
  well_formed t -> update hex t g = Some (t', g') ->
  within 10 (treePositions t) -> within 10 (treeTargetPositions t) ->
  within 10 (treePositions t') /\ within 10 (treeTargetPositions t').
Proof.
  intros Hwf Hrun Hp Hq.
  destruct (update_spec hex t g Hwf) as (t1 & g1 & Hrun1 & Hwf1 & _ & _ & _ & Hpos).
  assert (t1 = t') as -> by congruence.
  destruct (update_untouched hex _ _ _ _ Hrun) as (HN & _ & Htg & _).
  split; [|rewrite Htg; exact Hq].
  unfold within in *. rewrite Forall_lookup in *. intros k v Hk.
  destruct Hwf as (Hlp & Hlq & _). destruct Hwf1 as (Hlp1 & _).
  assert (Hlt : (k < treeCount t * 3)%nat).
  { apply lookup_lt_Some in Hk. lia. }
  destruct (lookup_lt_is_Some_2 (treePositions t) k) as [c Hc]; [lia|].
  destruct (lookup_lt_is_Some_2 (treeTargetPositions t) k) as [q Hq']; [lia|].
  rewrite (Hpos k c q Hc Hq') in Hk. injection Hk as <-.
  pose proof (Hp k c Hc). pose proof (Hq k q Hq'). cbn beta in *. lra.
Qed.

(** X13. No particle leaves the cube of half-width 10.  As long as
    [Math.random] draws from [0, 1), every coordinate of the current
    and of the target buffer lies in [-10, 10], from the constructor on
    and through every [form], [disperse], [rotate] and [update]. *)
Theorem particles_stay_in_the_cube (t : ParticleTree) :
  fairly_reachable hex hsl t ->
  within 10 (treePositions t) /\ within 10 (treeTargetPositions t).
Proof.
  induction 1 as [g Hg|t g Hr [IHp IHq] Hg|t g Hr [IHp IHq] Hg
                  |x t Hr IH|t g t' g' Hr [IHp IHq] Hg Hrun].
  - apply constructor_within, Hg.
  - split; [|apply form_within; assumption].
    destruct (form_frame t g) as (s & v & -> & _). exact IHp.
  - split; [|apply disperse_within; assumption].
    destruct (disperse_frame t g) as (s & v & -> & _). exact IHp.
  - exact IH.
  - apply (update_within t g t' g'); auto.
    apply (reachable_well_formed hex hsl), fairly_reachable_reachable, Hr.
Qed.

(** ** The meteor loop *)

(** An invariant of the meteor loop of [update]. *)
Lemma updateMeteors_loop_invariant
    (P : list Meteor * Float32Array * Float32Array -> RNG -> Prop) n :
  forall from s g s' g',
    (forall i s g s' g', (from <= i < from + n)%nat -> P s g ->
       updateMeteors_body hex i s g = Some (s', g') -> P s' g') ->
    P s g ->
    updateMeteors_loop hex n from s g = Some (s', g') ->
    P s' g'.
Proof.
  induction n as [|n IH]; intros from s g s' g' Hstep H0 Hrun.
  - injection Hrun as <- <-. exact H0.
  - cbn [updateMeteors_loop] in Hrun.
    destruct (updateMeteors_body hex from s g) as [[s1 g1]|] eqn:Hb;
      [|discriminate].
    cbn [mbind option_bind] in Hrun.
    apply (IH (S from) s1 g1 s' g'); [| |exact Hrun].
    + intros i s2 g2 s3 g3 Hi. apply Hstep. lia.
    + apply (Hstep from s g); [lia | exact H0 | exact Hb].
Qed.

(** One iteration, spelled out. *)
Lemma updateMeteors_body_spec i d ps cs g s' g' :
  updateMeteors_body hex i (d, ps, cs) g = Some (s', g') ->
  exists m,
    d !! i = Some m /\
    let a := advanced m in
    let respawn := Rlt_dec (vx (pos a)) (- 30) in
    s' = (<[i := if respawn then fst (resetMeteor hex false g) else a]> d,
          store3 (store3 ps (i * 2) (vx (pos a)) (vy (pos a)) (vz (pos a)))
            (i * 2 + 1)
            (vx (pos a) - vx (velocity a) * length_ a)
            (vy (pos a) - vy (velocity a) * length_ a)
            (vz (pos a) - vz (velocity a) * length_ a),
          store3 (store3 cs (i * 2) (c_r (color a)) (c_g (color a))
                    (c_b (color a)))
            (i * 2 + 1) 0 0 0) /\
    g' = if respawn then mkRNG (draws g) (cursor g + 7) else g.
Proof.
  unfold updateMeteors_body. destruct (d !! i) as [m|]; [|discriminate].
  cbn [mbind option_bind]. intros H. exists m. split; [reflexivity|].
  cbn zeta. unfold advanced in *.
  cbn [pos velocity length_ color vx vy vz] in *.
  destruct (Rlt_dec _ (- 30)).
  - pose proof (resetMeteor_draws hex false g) as Hd.
    destruct (resetMeteor hex false g) as [m' g1]. cbn [fst snd] in *.
    injection H as <- <-. split; [reflexivity | exact Hd].
  - injection H as <- <-. split; reflexivity.
Qed.

(** What [update] does to the meteors. *)
Lemma update_meteors t g t' g' :
  update hex t g = Some (t', g') ->
  match meteors t with
  | Some _ =>
      updateMeteors_loop hex (meteorCount t) 0
        (meteorData t, meteorPositions t, meteorColors t) g
      = Some (meteorData t', meteorPositions t', meteorColors t', g')
  | None =>
      meteorData t' = meteorData t /\ meteorPositions t' = meteorPositions t /\
      meteorColors t' = meteorColors t /\ g' = g
  end.
Proof.
  unfold update.
  destruct (blend_loop _ _ _ _) as [v|]; [|discriminate].
  cbn [mbind option_bind].
  destruct (particles _) as [o|]; tree_simpl;
    (destruct (meteors t) as [m|]; tree_simpl;
     [destruct (updateMeteors_loop _ _ _ _ _) as [[[[d ps] cs] g1]|];
      tree_simpl | ]);
    intros [= <- <-] || discriminate; tree_simpl; auto.
Qed.

Lemma resetMeteor_in_flight randomStart g :
  unit_draws g ->
  let m := fst (resetMeteor hex randomStart g) in
  in_flight m /\
  (randomStart = false -> 20 <= vx (pos m) <= 30) /\
  (randomStart = true -> -20 <= vx (pos m) <= 20).
Proof.
  intros Hg m. subst m. unfold resetMeteor, bind, Math_random, ret, in_flight.
  cbn [fst snd draws cursor pos velocity length_ vx vy vz].
  pose proof (Hg (cursor g)) as H0.
  pose proof (Hg (S (S (cursor g)))) as H2.
  pose proof (Hg (S (S (S (cursor g))))) as H3.
  pose proof (Hg (S (S (S (S (cursor g)))))) as H4.
  pose proof (Hg (S (S (S (S (S (cursor g))))))) as H5.
  destruct randomStart; split_and!; intros; try discriminate; lra.
Qed.

Lemma advanced_in_flight m :
  in_flight m -> ~ vx (pos (advanced m)) < -30 -> in_flight (advanced m).
Proof.
  unfold in_flight, advanced. cbn [pos velocity length_ vx vy vz].
  intros (Hx & Hz & Hvx & Hvy & Hvz & Hl) Hstay. rewrite Hvz.
  split_and!; lra.
Qed.

Lemma updateMeteors_loop_in_flight n from d ps cs g d' ps' cs' g' :
  unit_draws g -> Forall in_flight d ->
  updateMeteors_loop hex n from (d, ps, cs) g = Some (d', ps', cs', g') ->
  unit_draws g' /\ Forall in_flight d'.
Proof.
  intros Hg Hd Hrun.
  apply (updateMeteors_loop_invariant
           (fun s g => unit_draws g /\ Forall in_flight (fst (fst s)))
           n from (d, ps, cs) g (d', ps', cs') g'); [|split; assumption|exact Hrun].
  intros i [[d1 ps1] cs1] g1 s2 g2 _ [Hg1 Hd1] Hb.
  destruct (updateMeteors_body_spec _ _ _ _ _ _ _ Hb) as (m & Hm & -> & ->).
  cbn [fst]. pose proof (proj1 (Forall_lookup _ _) Hd1 i m Hm) as Hfl.
  destruct (Rlt_dec _ (- 30)) as [Hout|Hin].
  - split; [exact (unit_draws_source g1 _ eq_refl Hg1)|].
    apply Forall_insert; [exact Hd1|].
    apply (resetMeteor_in_flight false g1 Hg1).
  - split; [exact Hg1|]. apply Forall_insert; [exact Hd1|].
    apply advanced_in_flight; assumption.
Qed.

Lemma initMeteors_in_flight t g :
  unit_draws g -> Forall in_flight (meteorData (fst (initMeteors hex t g))).
Proof.
  intros Hg. unfold initMeteors, bind, ret.
  pose proof (for_rand_invariant
                (fun _ (d : list Meteor) g' => unit_draws g' /\ Forall in_flight d)
                (initMeteors_body hex) (meteorCount t) 0 [] g) as H.
  destruct (for_rand _ _ _ _ _) as [d g1]. tree_simpl.
  apply H; [|split; [exact Hg | constructor]].
  intros i d' g' _ [Hg' Hd']. unfold initMeteors_body, bind, ret.
  pose proof (resetMeteor_in_flight true g' Hg') as (Hm & _).
  pose proof (resetMeteor_draws hex true g') as Hs.
  destruct (resetMeteor hex true g') as [m g2]. cbn [fst snd] in *.
  split; [subst g2; exact (unit_draws_source g' _ eq_refl Hg')|].
  apply Forall_app. split; [exact Hd' | constructor; [exact Hm | constructor]].
Qed.

Lemma initParticles_unit_draws t g :
  unit_draws g -> unit_draws (snd (initParticles hex hsl t g)).
Proof.
  intros Hg. unfold initParticles, bind, ret.
  pose proof (for_rand_invariant
                (fun _ (s : ParticleTree * Color) g' => unit_draws g')
                (initParticles_body hex hsl) (treeCount t) 0
                (t, new_Color) g) as H.
  destruct (for_rand _ _ _ _ _) as [[t1 c1] g1]. cbn [snd] in *.
  apply H; [|exact Hg].
  intros i [t2 c2] g2 _ Hg2. unfold initParticles_body, bind, ret.
  pose proof (banyan_source t2 i g2) as Hs.
  destruct (getBanyanPosition t2 i g2) as [p g3]. cbn [fst snd] in *.
  pose proof (appearance_source hex hsl (type p) c2 g3) as Hs'.
  destruct (appearance _ _ _ _ _) as [[[c sz] op] g4]. cbn [fst snd] in *.
  apply (unit_draws_source g2); [congruence | exact Hg2].
Qed.

(** The meteors of a fairly reachable tree are all in flight. *)
Lemma in_flight_invariant (t : ParticleTree) :
  fairly_reachable hex hsl t -> Forall in_flight (meteorData t).
Proof.
  induction 1 as [g Hg|t g Hr IH Hg|t g Hr IH Hg|x t Hr IH
                  |t g t' g' Hr IH Hg Hrun].
  - unfold constructor_, bind.
    pose proof (initParticles_unit_draws
                  (mkTree (Z.to_nat 20000) 100
                     (new_Float32Array (Z.to_nat 20000 * 3))
                     (new_Float32Array (Z.to_nat 20000 * 3))
                     (new_Float32Array (Z.to_nat 20000 * 3))
                     (new_Float32Array (Z.to_nat 20000))
                     (new_Float32Array (Z.to_nat 20000))
                     formed 0 0 None None [] [] []) g Hg) as Hg1.
    destruct (initParticles hex hsl _ g) as [t1 g1]. cbn [snd] in Hg1.
    apply initMeteors_in_flight, Hg1.
  - destruct (form_frame t g) as (s & v & -> & _). exact IH.
  - destruct (disperse_frame t g) as (s & v & -> & _). exact IH.
  - exact IH.
  - pose proof (update_meteors t g t' g' Hrun) as Hm.
    destruct (meteors t).
    + exact (proj2 (updateMeteors_loop_in_flight _ _ _ _ _ _ _ _ _ _ Hg IH Hm)).
    + destruct Hm as (-> & _). exact IH.
Qed.

(** X14. Every meteor stays in flight (numbers as reals; the bounds
    are closed, so that they also hold of the sums as binary64 rounds
    them).  As long as [Math.random] draws from [0, 1), each entry of
    [meteorData] has its head between the exit at [x = -30] and the
    right edge [x = 30] of the spawn range, lies behind the tree ([z] in
    [-20, -10]), flies left by 0.3 to 0.6 and down by 0.05 to 0.15 a
    frame without moving in depth, and has a trail length in [3, 9]. *)
Theorem meteors_stay_in_flight (t : ParticleTree) (i : nat) (m : Meteor) :
  fairly_reachable hex hsl t ->
  meteorData t !! i = Some m ->
  -30 <= vx (pos m) <= 30 /\
  -20 <= vz (pos m) <= -10 /\
  -0.6 <= vx (velocity m) <= -0.3 /\
  -0.15 <= vy (velocity m) <= -0.05 /\
  vz (velocity m) = 0 /\
  3 <= length_ m <= 9.
Proof.
  intros Hfair Hm.
  pose proof (in_flight_invariant t Hfair) as Hall.
  rewrite Forall_lookup in Hall. exact (Hall i m Hm).
Qed.

(** The two stores of one meteor: six entries written, the rest left. *)
Lemma store_segment (a : Float32Array) i h1 h2 h3 t1 t2 t3 :
  (i * 6 + 5 < length a)%nat ->
  let a' := store3 (store3 a (i * 2) h1 h2 h3) (i * 2 + 1) t1 t2 t3 in
  (forall j, (j < 6)%nat ->
     a' !! (i * 6 + j)%nat = [h1; h2; h3; t1; t2; t3] !! j) /\
  (forall k, (k < i * 6 \/ i * 6 + 6 <= k)%nat -> a' !! k = a !! k) /\
  length a' = length a.
Proof.
  intros Hlen a'. subst a'. split_and!.
  - intros j Hj. unfold store3.
    rewrite !list_lookup_insert, !length_insert.
    do 6 (destruct j as [|j];
          [repeat case_decide; first [reflexivity | lia]|]).
    lia.
  - intros k Hk. unfold store3.
    rewrite !list_lookup_insert, !length_insert.
    repeat case_decide; first [reflexivity | lia].
  - rewrite !store3_length. reflexivity.
Qed.

(** The meteor loop, meteor by meteor. *)
Lemma updateMeteors_loop_pointwise n : forall from d ps cs g d' ps' cs' g',
  ((from + n) * 6 <= length ps)%nat ->
  ((from + n) * 6 <= length cs)%nat ->
  updateMeteors_loop hex n from (d, ps, cs) g = Some (d', ps', cs', g') ->
  draws g' = draws g /\
  length d' = length d /\ length ps' = length ps /\ length cs' = length cs /\
  (forall i, (i < from \/ from + n <= i)%nat -> d' !! i = d !! i) /\
  (forall k, (k < from * 6 \/ (from + n) * 6 <= k)%nat ->
     ps' !! k = ps !! k /\ cs' !! k = cs !! k) /\
  (forall i m, (from <= i < from + n)%nat -> d !! i = Some m ->
     (forall j, (j < 6)%nat ->
        ps' !! (i * 6 + j)%nat = segment (advanced m) !! j /\
        cs' !! (i * 6 + j)%nat = segment_colours (advanced m) !! j) /\
     exists gi,
       draws gi = draws g /\
       d' !! i = Some (if Rlt_dec (vx (pos (advanced m))) (- 30)
                       then fst (resetMeteor hex false gi)
                       else advanced m)).
Proof.
  induction n as [|n IH]; intros from d ps cs g d' ps' cs' g' Hps Hcs Hrun.
  - injection Hrun as <- <- <- <-. split_and!; auto. intros; lia.
  - cbn [updateMeteors_loop] in Hrun.
    destruct (updateMeteors_body hex from (d, ps, cs) g) as [[s1 g1]|] eqn:Hb;
      [|discriminate].
    cbn [mbind option_bind] in Hrun.
    destruct (updateMeteors_body_spec _ _ _ _ _ _ _ Hb) as (m0 & Hm0 & Hs1 & Hg1).
    cbn zeta in Hs1, Hg1.
    set (a0 := advanced m0) in *.
    destruct (store_segment ps from (vx (pos a0)) (vy (pos a0)) (vz (pos a0))
                (vx (pos a0) - vx (velocity a0) * length_ a0)
                (vy (pos a0) - vy (velocity a0) * length_ a0)
                (vz (pos a0) - vz (velocity a0) * length_ a0))
      as (Pin & Pout & Plen); [lia|].
    destruct (store_segment cs from (c_r (color a0)) (c_g (color a0))
                (c_b (color a0)) 0 0 0) as (Cin & Cout & Clen); [lia|].
    cbn zeta in Pin, Pout, Plen, Cin, Cout, Clen.
    subst s1.
    assert (Hdraws : draws g1 = draws g).
    { subst g1. destruct (Rlt_dec _ _); reflexivity. }
    apply IH in Hrun; [|lia..].
    destruct Hrun as (Hd' & Hld & Hlp & Hlc & Hdout & Hbout & Hin).
    rewrite length_insert in Hld.
    split_and!; try congruence.
    + intros i Hi. rewrite Hdout by lia. apply list_lookup_insert_ne. lia.
    + intros k Hk. destruct (Hbout k) as [-> ->]; [lia|].
      split; [apply Pout | apply Cout]; lia.
    + intros i m Hi Hm.
      destruct (decide (i = from)) as [->|Hne].
      * assert (m = m0) as -> by congruence. fold a0. split.
        -- intros j Hj. destruct (Hbout (from * 6 + j)%nat) as [-> ->]; [lia|].
           split; [apply Pin | apply Cin]; exact Hj.
        -- exists g. split; [reflexivity|].
           rewrite Hdout by lia. apply list_lookup_insert_eq.
           apply lookup_lt_Some in Hm0. exact Hm0.
      * destruct (Hin i m) as (Hseg & gi & Hgi & Hdi); [lia| |].
        { rewrite list_lookup_insert_ne by lia. exact Hm. }
        split; [exact Hseg|]. exists gi. split; [congruence | exact Hdi].
Qed.

(** ** The sizes of the arrays *)

Lemma initParticles_sized N t g :
  tree_sized N t ->
  tree_sized N (fst (initParticles hex hsl t g)) /\
  meteorCount (fst (initParticles hex hsl t g)) = meteorCount t.
Proof.
  intros Hs. unfold initParticles, bind, ret.
  pose proof (for_rand_invariant
                (fun _ (s : ParticleTree * Color) _ =>
                   tree_sized N (fst s) /\ meteorCount (fst s) = meteorCount t)
                (initParticles_body hex hsl) (treeCount t) 0
                (t, new_Color) g) as H.
  destruct (for_rand _ _ _ _ _) as [[t1 c1] g1]. tree_simpl.
  unfold tree_sized in *. tree_simpl. apply H; [|auto].
  intros i [t2 c2] g2 _. unfold initParticles_body, bind, ret.
  destruct (getBanyanPosition t2 i g2) as [p g3].
  destruct (appearance _ _ _ _ _) as [[[c sz] op] g4]. tree_simpl.
  rewrite !store3_length, !length_insert. auto.
Qed.

Lemma constructor_full_shape g : full_shape (fst (constructor_ hex hsl g)).
Proof.
  unfold constructor_, bind. remember (Z.to_nat 20000) as N eqn:HN.
  match goal with
  | |- context [initParticles hex hsl ?t0 g] =>
      pose proof (initParticles_sized N t0 g) as H; set (t0' := t0) in *
  end.
  destruct (initParticles hex hsl t0' g) as [t1 g1]. tree_simpl.
  destruct H as ((H1 & H2 & H3 & H4 & H5 & H6) & HM).
  { unfold tree_sized, t0', new_Float32Array. tree_simpl.
    rewrite !length_replicate. auto 10. }
  subst t0'. tree_simpl.
  pose proof (initMeteors_spec hex t1 g1) as (Hd & Ht).
  unfold initMeteors, bind, ret in *.
  destruct (for_rand _ _ _ _ _) as [d g2]. tree_simpl.
  unfold full_shape, new_Float32Array. tree_simpl.
  rewrite !length_replicate, H1. split_and!; auto; lia.
Qed.

Lemma constructor_meteors g : is_Some (meteors (fst (constructor_ hex hsl g))).
Proof.
  unfold constructor_, bind.
  destruct (initParticles hex hsl _ g) as [t1 g1].
  unfold initMeteors, bind, ret.
  destruct (for_rand _ _ _ _ _) as [d g2]. tree_simpl. eauto.
Qed.

Lemma update_meteors_object t g t' g' :
  update hex t g = Some (t', g') -> meteors t' = meteors t.
Proof.
  unfold update.
  destruct (blend_loop _ _ _ _) as [v|]; [|discriminate].
  cbn [mbind option_bind].
  destruct (particles _) as [o|]; tree_simpl;
    (destruct (meteors t) as [m|] eqn:Hm; tree_simpl;
     [destruct (updateMeteors_loop _ _ _ _ _) as [[[[d ps] cs] g1]|];
      tree_simpl | ]);
    intros [= <- <-] || discriminate; tree_simpl; auto.
Qed.

Lemma update_full_shape t g t' g' :
  full_shape t -> well_formed t -> update hex t g = Some (t', g') ->
  full_shape t'.
Proof.
  intros (H1 & H2 & H3 & H4 & H5 & H6 & H7 & H8 & H9 & H10) Hwf Hrun.
  destruct (update_spec hex t g Hwf) as (t1 & g1 & Hrun1 & (Hp & _) & _).
  assert (t1 = t') as -> by congruence.
  destruct (update_untouched hex _ _ _ _ Hrun)
    as (HN & HM & Htg & Hc & Hs & Ho & _).
  pose proof (update_meteors t g t' g' Hrun) as Hm.
  assert (Hmet : length (meteorData t') = length (meteorData t) /\
                 length (meteorPositions t') = length (meteorPositions t) /\
                 length (meteorColors t') = length (meteorColors t)).
  { destruct (meteors t).
    - apply updateMeteors_loop_pointwise in Hm; [|lia..].
      destruct Hm as (_ & ? & ? & ? & _). auto.
    - destruct Hm as (-> & -> & -> & _). auto. }
  destruct Hmet as (M1 & M2 & M3).
  unfold full_shape. rewrite Htg, Hc, Hs, Ho, HN, HM, M1, M2, M3.
  split_and!; auto. congruence.
Qed.

Lemma reachable_full_shape t :
  reachable hex hsl t -> full_shape t /\ is_Some (meteors t).
Proof.
  induction 1 as [g|t g Hr [IH IHm]|t g Hr [IH IHm]|x t Hr [IH IHm]
                  |t g t' g' Hr [IH IHm] Hrun].
  - split; [apply constructor_full_shape | apply constructor_meteors].
  - destruct (form_frame t g) as (s & v & -> & Hlen).
    unfold full_shape in *. tree_simpl. rewrite Hlen. auto.
  - destruct (disperse_frame t g) as (s & v & -> & Hlen).
    unfold full_shape in *. tree_simpl. rewrite Hlen. auto.
  - unfold full_shape, rotate in *. tree_simpl. auto.
  - split.
    + apply (update_full_shape t g t' g' IH); [|exact Hrun].
      apply (reachable_well_formed hex hsl), Hr.
    + rewrite (update_meteors_object _ _ _ _ Hrun). exact IHm.
Qed.

(** X15. No particle or meteor is ever added or removed.  In every
    reachable tree there are 20000 particles and 100 meteors, and each
    array has the size the constructor gave it: three entries per
    particle for positions, targets and colours, one for sizes and
    opacities, one [meteorData] entry and six buffer entries per
    meteor. *)
Theorem array_sizes_are_fixed (t : ParticleTree) :
  reachable hex hsl t ->
  treeCount t = Z.to_nat 20000 /\
  meteorCount t = 100%nat /\
  length (treePositions t) = Z.to_nat 60000 /\
  length (treeTargetPositions t) = Z.to_nat 60000 /\
  length (treeColors t) = Z.to_nat 60000 /\
  length (treeSizes t) = Z.to_nat 20000 /\
  length (treeOpacities t) = Z.to_nat 20000 /\
  length (meteorData t) = 100%nat /\
  length (meteorPositions t) = 600%nat /\
  length (meteorColors t) = 600%nat.
Proof.
  intros Hr.
  destruct (reachable_full_shape t Hr)
    as ((H1 & H2 & H3 & H4 & H5 & H6 & H7 & H8 & H9 & H10) & _).
  rewrite H3, H4, H5, H6, H7, H8, H9, H10, H1, H2.
  split_and!; try reflexivity; lia.
Qed.

(** One frame seen from meteor [i]. *)
Lemma update_meteor t g t' g' i m :
  reachable hex hsl t ->
  update hex t g = Some (t', g') ->
  meteorData t !! i = Some m ->
  (forall j, (j < 6)%nat ->
     meteorPositions t' !! (i * 6 + j)%nat = segment (advanced m) !! j /\
     meteorColors t' !! (i * 6 + j)%nat = segment_colours (advanced m) !! j) /\
  exists gi,
    draws gi = draws g /\
    meteorData t' !! i =
      Some (if Rlt_dec (vx (pos (advanced m))) (- 30)
            then fst (resetMeteor hex false gi)
            else advanced m).
Proof.
  intros Hr Hrun Hm.
  destruct (reachable_full_shape t Hr)
    as ((_ & H2 & _ & _ & _ & _ & _ & H8 & H9 & H10) & [o Ho]).
  pose proof (update_meteors t g t' g' Hrun) as Hmet. rewrite Ho in Hmet.
  apply updateMeteors_loop_pointwise in Hmet; [|lia..].
  destruct Hmet as (_ & _ & _ & _ & _ & _ & Hin).
  apply (Hin i m); [|exact Hm].
  apply lookup_lt_Some in Hm. lia.
Qed.

(** X16. Each frame draws every meteor as a segment from its head to
    a tail trailing behind (numbers as reals: the rounding of the
    products and of the stores is not modelled).  After [update], the
    six buffer entries of meteor [i] are the head, advanced by the
    velocity, and the head minus the velocity times the trail length;
    the colour buffer holds the meteor's colour at the head and black at
    the tail.  The tail lies to the right of the head, and above it. *)
Theorem meteor_is_drawn_with_its_trail
    (t : ParticleTree) (g : RNG) (t' : ParticleTree) (g' : RNG)
    (i : nat) (m : Meteor) :
  fairly_reachable hex hsl t ->
  update hex t g = Some (t', g') ->
  meteorData t !! i = Some m ->
  let a := advanced m in
  (forall j, (j < 6)%nat ->
     meteorPositions t' !! (i * 6 + j)%nat = segment a !! j /\
     meteorColors t' !! (i * 6 + j)%nat = segment_colours a !! j) /\
  exists hx hy tx ty,
    meteorPositions t' !! (i * 6)%nat = Some hx /\
    meteorPositions t' !! (i * 6 + 1)%nat = Some hy /\
    meteorPositions t' !! (i * 6 + 3)%nat = Some tx /\
    meteorPositions t' !! (i * 6 + 4)%nat = Some ty /\
    hx = vx (pos m) + vx (velocity m) /\
    hx < tx /\
    hy < ty.
Proof.
  intros Hfair Hrun Hm a.
  pose proof (fairly_reachable_reachable t Hfair) as Hr.
  destruct (update_meteor t g t' g' i m Hr Hrun Hm) as (Hseg & _).
  split; [exact Hseg|].
  pose proof (in_flight_invariant t Hfair) as Hfl.
  pose proof (proj1 (Forall_lookup _ _) Hfl i m Hm)
    as (Hx & Hz & Hvx & Hvy & Hvz & Hl).
  destruct (Hseg 0%nat) as (P0 & _); [lia|].
  destruct (Hseg 1%nat) as (P1 & _); [lia|].
  destruct (Hseg 3%nat) as (P3 & _); [lia|].
  destruct (Hseg 4%nat) as (P4 & _); [lia|].
  rewrite Nat.add_0_r in P0.
  eexists _, _, _, _. split_and!; [exact P0 | exact P1 | exact P3 | exact P4 | ..];
    cbn [advanced pos velocity length_ vx vy vz]; try reflexivity; nra.
Qed.

(** X17. A meteor that leaves on the left comes back on the right
    (numbers as reals; the bounds are closed, so that they also hold of
    the sums as binary64 rounds them).  When the advanced head has
    [x < -30], the frame still draws it there, and the meteor ends the
    frame respawned, in flight again with its head at [x] in [20, 30];
    otherwise it ends the frame advanced by its velocity and otherwise
    unchanged. *)
Theorem meteor_respawns_on_exit
    (t : ParticleTree) (g : RNG) (t' : ParticleTree) (g' : RNG)
    (i : nat) (m : Meteor) :
  fairly_reachable hex hsl t ->
  unit_draws g ->
  update hex t g = Some (t', g') ->
  meteorData t !! i = Some m ->
  let x' := vx (pos m) + vx (velocity m) in
  meteorPositions t' !! (i * 6)%nat = Some x' /\
  (x' < -30 ->
   exists m', meteorData t' !! i = Some m' /\
              20 <= vx (pos m') <= 30 /\ in_flight m') /\
  (-30 <= x' -> meteorData t' !! i = Some (advanced m)).
Proof.
  intros Hfair Hg Hrun Hm x'.
  pose proof (fairly_reachable_reachable t Hfair) as Hr.
  destruct (update_meteor t g t' g' i m Hr Hrun Hm) as (Hseg & gi & Hgi & Hd).
  destruct (Hseg 0%nat) as (P0 & _); [lia|]. rewrite Nat.add_0_r in P0.
  change (vx (pos (advanced m))) with x' in Hd.
  split_and!.
  - exact P0.
  - intros Hout. destruct (Rlt_dec x' (- 30)); [|lra].
    pose proof (resetMeteor_in_flight false gi
                  (unit_draws_source g gi Hgi Hg)) as (Hfl & Hx & _).
    eexists. split; [exact Hd|]. split; [apply Hx; reflexivity | exact Hfl].
  - intros Hin. destruct (Rlt_dec x' (- 30)); [lra | exact Hd].
Qed.

(** ** Frames in a row *)

Lemma updates_turn n : forall t g y,
  well_formed t -> orientation t = Some y ->
  exists tn gn,
    updates hex n t g = Some (tn, gn) /\
    orientation tn = Some (y + rotationSpeed t * (1 - 0.96 ^ n) / 0.04) /\
    uTime tn = uTime t + INR n * 0.01.
Proof.
  induction n as [|n IH]; intros t g y Hwf Hy.
  - exists t, g. split_and!; [reflexivity | | cbn [INR]; lra].
    rewrite Hy. apply (f_equal Some). cbn [pow]. lra.
  - destruct (update_spec hex t g Hwf)
      as (t1 & g1 & Hrun & Hwf1 & Hv & Ho & Hu & _).
    rewrite Hy in Ho. cbn [fmap option_fmap option_map] in Ho.
    destruct (IH t1 g1 _ Hwf1 Ho) as (tn & gn & Hrunn & Hon & Hun).
    exists tn, gn. split_and!.
    + cbn [updates]. rewrite Hrun. exact Hrunn.
    + rewrite Hon, Hv. apply (f_equal Some). cbn [pow]. lra.
    + rewrite Hun, Hu, S_INR. lra.
Qed.

(** X18. One gesture turns the field by a bounded angle.  [n] frames
    after [rotate(x)], with no event in between, the orientation has
    moved by [(x - 0.5) * 0.1 * (1 - 0.96 ^ n) / 0.04]: never by more
    than [2.5 * |x - 0.5|], so by at most 1.25 for [x] in [0, 1]. *)
Theorem one_gesture_turns_a_bounded_angle
    (t : ParticleTree) (g : RNG) (x y : R) (n : nat) :
  well_formed t ->
  orientation t = Some y ->
  exists tn gn yn,
    updates hex n (rotate x t) g = Some (tn, gn) /\
    orientation tn = Some yn /\
    yn - y = (x - 0.5) * 0.1 * (1 - 0.96 ^ n) / 0.04 /\
    Rabs (yn - y) <= 2.5 * Rabs (x - 0.5) /\
    (0 <= x <= 1 -> Rabs (yn - y) <= 1.25).
Proof.
  intros Hwf Hy.
  destruct (updates_turn n (rotate x t) g y (rotate_well_formed x t Hwf) Hy)
    as (tn & gn & Hrun & Ho & _).
  assert (Hv0 : rotationSpeed (rotate x t) = (x - 0.5) * 0.1) by reflexivity.
  rewrite Hv0 in Ho. clear Hv0.
  exists tn, gn. eexists. split; [exact Hrun|]. split; [exact Ho|].
  destruct (pow_fraction 0.96 n) as [[Hlo Hhi] _]; [lra|].
  set (a := 0.96 ^ n) in *.
  assert (Hd : y + (x - 0.5) * 0.1 * (1 - a) / 0.04 - y
               = (x - 0.5) * (2.5 * (1 - a))) by (clearbody a; lra).
  split; [lra|]. rewrite Hd, Rabs_mult.
  rewrite (Rabs_pos_eq (2.5 * (1 - a))) by lra.
  pose proof (Rabs_pos (x - 0.5)) as Hp.
  split; [nra|]. intros Hx.
  assert (Rabs (x - 0.5) <= 0.5) by (apply Rabs_le; lra). nra.
Qed.

(** X19. The time of the shaders runs at 0.01 a frame: after [n]
    frames [uTime] has grown by [n * 0.01], whatever else happened. *)
Theorem shader_time_advances (t : ParticleTree) (g : RNG) (n : nat) :
  well_formed t ->
  exists tn gn,
    updates hex n t g = Some (tn, gn) /\
    uTime tn = uTime t + INR n * 0.01.
Proof.
  intros Hwf. destruct Hwf as (Hp & Hq & Hd & [o Ho]).
  destruct (updates_turn n t g (rotation_y o)) as (tn & gn & Hrun & _ & Hu).
  - repeat split; eauto.
  - unfold orientation. rewrite Ho. reflexivity.
  - exists tn, gn. split; assumption.
Qed.

(** X20. A tree at rest stays at rest.  When every current coordinate
    equals its target, as right after construction, [update] moves no
    particle, however many frames go by. *)
Theorem tree_at_rest_stays_at_rest (t : ParticleTree) (g : RNG) (n : nat) :
  well_formed t ->
  treePositions t = treeTargetPositions t ->
  exists tn gn,
    updates hex n t g = Some (tn, gn) /\
    treePositions tn = treePositions t /\
    treeTargetPositions tn = treeTargetPositions t.
Proof.
  intros Hwf Heq.
  destruct (updates_spec hex n t g Hwf)
    as (tn & gn & Hrun & Hwfn & Htg & _ & Hpos).
  exists tn, gn. split_and!; [exact Hrun | | exact Htg].
  assert (Hlen : length (treePositions tn) = length (treePositions t)).
  { destruct Hwfn as (Hpn & Hqn & _). destruct Hwf as (Hp & Hq & _).
    rewrite Hpn, <- Hqn, Htg, <- Heq. reflexivity. }
  apply list_eq. intros k.
  destruct (treePositions t !! k) as [c|] eqn:Hc.
  - rewrite (Hpos k c c Hc ltac:(rewrite <- Heq; exact Hc)). f_equal. lra.
  - apply lookup_ge_None. apply lookup_ge_None in Hc. lia.
Qed.

(** ** What the constructor dresses the particles in *)

Lemma appearance_dressed ty c0 g :
  unit_draws g ->
  let a := fst (appearance hex hsl ty c0 g) in
  dressed ty (snd (fst a)) (snd a).
Proof.
  intros Hg a. subst a.
  pose proof (Hg (S (cursor g))) as H1.
  pose proof (Hg (S (S (cursor g)))) as H2.
  unfold appearance, bind, Math_random, ret, dressed.
  destruct ty; cbn [draws cursor];
    repeat match goal with
           | |- context [Rlt_dec ?a ?b] => destruct (Rlt_dec a b)
           end; cbn [fst snd draws cursor];
    first [lra | split; [lra | first [left; lra | right; lra]]].
Qed.

Lemma initParticles_dressed t g :
  unit_draws g ->
  treeCount t = Z.to_nat 20000 ->
  length (treeSizes t) = treeCount t ->
  length (treeOpacities t) = treeCount t ->
  let t' := fst (initParticles hex hsl t g) in
  forall i, (i < treeCount t)%nat ->
    exists size opacity,
      treeSizes t' !! i = Some size /\
      treeOpacities t' !! i = Some opacity /\
      dressed (region_of i) size opacity.
Proof.
  intros Hg HN Hls Hlo. unfold initParticles, bind, ret.
  pose proof (for_rand_invariant
                (fun n (s : ParticleTree * Color) g' =>
                   unit_draws g' /\
                   treeCount (fst s) = treeCount t /\
                   length (treeSizes (fst s)) = treeCount t /\
                   length (treeOpacities (fst s)) = treeCount t /\
                   forall i, (i < n)%nat ->
                     exists size opacity,
                       treeSizes (fst s) !! i = Some size /\
                       treeOpacities (fst s) !! i = Some opacity /\
                       dressed (region_of i) size opacity)
                (initParticles_body hex hsl) (treeCount t) 0
                (t, new_Color) g) as H.
  destruct (for_rand _ _ _ _ _) as [[t1 c1] g1]. tree_simpl.
  apply H; [|split_and!; auto; intros; lia].
  clear H. intros i [t2 c2] g2 Hi (Hg2 & HN2 & Hls2 & Hlo2 & Hbefore).
  cbn [fst] in HN2, Hls2, Hlo2, Hbefore.
  unfold initParticles_body, bind, ret.
  pose proof (banyan_type_of_20000 t2 i g2 ltac:(congruence)) as Hty.
  fold (region_of i) in Hty.
  pose proof (banyan_source t2 i g2) as Hs.
  destruct (getBanyanPosition t2 i g2) as [p g3]. cbn [fst snd] in *.
  pose proof (appearance_source hex hsl (type p) c2 g3) as Hs'.
  pose proof (appearance_dressed (type p) c2 g3
                (unit_draws_source g2 g3 Hs Hg2)) as Hdr.
  destruct (appearance _ _ _ _ _) as [[[c sz] op] g4]. tree_simpl.
  cbn [fst snd] in Hdr. rewrite !length_insert.
  split_and!; auto.
  - apply (unit_draws_source g2); [congruence | exact Hg2].
  - intros j Hj. destruct (decide (j = i)) as [->|Hne].
    + exists sz, op. rewrite !list_lookup_insert_eq by lia.
      rewrite <- Hty. auto.
    + rewrite !list_lookup_insert_ne by lia. apply Hbefore. lia.
Qed.

Lemma dressed_roughly ty size opacity :
  dressed ty size opacity -> roughly_dressed ty size opacity.
Proof.
  unfold dressed, roughly_dressed, rounding. destruct ty.
  - intros [-> [-> | H]]; (split; [apply Rabs_le; lra|]).
    + left. apply Rabs_le. lra.
    + right. lra.
  - intros [-> ->]. split; apply Rabs_le; lra.
  - intros [H1 H2]. lra.
Qed.

(** No transition and no frame writes a size or an opacity. *)
Lemma dress_invariant (t : ParticleTree) (i : nat) :
  fairly_reachable hex hsl t ->
  (i < Z.to_nat 20000)%nat ->
  exists size opacity,
    treeSizes t !! i = Some size /\
    treeOpacities t !! i = Some opacity /\
    dressed (region_of i) size opacity.
Proof.
  intros Hfair Hi.
  induction Hfair as [g Hg|t g Hr IH Hg|t g Hr IH Hg|x t Hr IH
                      |t g t' g' Hr IH Hg Hrun].
  - unfold constructor_, bind.
    match goal with
    | |- context [initParticles hex hsl ?t0 g] =>
        pose proof (initParticles_dressed t0 g Hg) as H; set (t0' := t0) in *
    end.
    destruct (initParticles hex hsl t0' g) as [t1 g1]. cbn [fst] in H.
    destruct (initMeteors_spec hex t1 g1) as (_ & ->). tree_simpl.
    apply H; subst t0'; unfold new_Float32Array; tree_simpl;
      rewrite ?length_replicate; auto.
  - destruct (form_frame t g) as (s & v & -> & _). exact IH.
  - destruct (disperse_frame t g) as (s & v & -> & _). exact IH.
  - exact IH.
  - destruct (update_untouched hex _ _ _ _ Hrun) as (_ & _ & _ & _ & -> & -> & _).
    exact IH.
Qed.

(** X21. The particles keep the dress of their region (numbers as
    reals; sizes and opacities are given up to [rounding], which covers
    what the store into a [Float32Array] changes).  As long as
    [Math.random] draws from [0, 1), in every tree the page can hold
    the first 5000 particles (the trunk) have opacity 0.9 and a size of
    2.5 or in [0.8, 1.3]; particles 5000 to 6999 (the roots) have size
    0.7 and opacity 0.7; the rest (the leaves) have a size in [1.2, 2.2]
    and an opacity in [0.85, 1]. *)
Theorem particles_keep_their_dress (t : ParticleTree) (i : nat) :
  fairly_reachable hex hsl t ->
  (i < Z.to_nat 20000)%nat ->
  exists size opacity,
    treeSizes t !! i = Some size /\
    treeOpacities t !! i = Some opacity /\
    roughly_dressed (region_of i) size opacity.
Proof.
  intros Hfair Hi.
  destruct (dress_invariant t i Hfair Hi) as (size & opacity & Hs & Ho & Hd).
  exists size, opacity.
  split; [exact Hs|]. split; [exact Ho|]. apply dressed_roughly, Hd.
Qed.

End FieldFacts.

(** X22. A transition draws a fixed number of times.  [form] on a
    ['dispersed'] tree takes exactly four draws per particle, whatever
    the regions; [disperse] on a ['formed'] tree takes three per
    particle. *)
Theorem transitions_draw_a_fixed_number (t : ParticleTree) (g : RNG) :
  (state t = dispersed ->
   snd (form t g) = mkRNG (draws g) (cursor g + 4 * treeCount t)) /\
  (state t = formed ->
   snd (disperse t g) = mkRNG (draws g) (cursor g + 3 * treeCount t)).
Proof.
  split; intros Hs.
  - destruct (form_runs t g Hs) as (v & -> & _). reflexivity.
  - destruct (disperse_runs t g Hs) as (v & -> & _). reflexivity.
Qed.

(** * The further statements at concrete inputs *)

(** The tree as constructed from draws that are all one half. *)
Lemma grey_tree_fairly_reachable :
  fairly_reachable grey_hex grey_hsl
    (fst (constructor_ grey_hex grey_hsl halves)).
Proof. apply fair_new, halves_unit_draws. Defined.

Lemma grey_tree_in_the_cube :
  within 10 (treePositions (fst (constructor_ grey_hex grey_hsl halves))).
Proof.
  exact (proj1 (particles_stay_in_the_cube grey_hex grey_hsl _
                  grey_tree_fairly_reachable)).
Defined.

Lemma grey_tree_first_meteor_in_flight :
  exists m,
    meteorData (fst (constructor_ grey_hex grey_hsl halves)) !! 0%nat = Some m /\
    -30 <= vx (pos m) <= 30.
Proof.
  destruct (lookup_lt_is_Some_2
              (meteorData (fst (constructor_ grey_hex grey_hsl halves))) 0)
    as [m Hm].
  { destruct (constructor_full_shape grey_hex grey_hsl halves)
      as (_ & H2 & _ & _ & _ & _ & _ & H8 & _). rewrite H8, H2. lia. }
  exists m. split; [exact Hm|].
  exact (proj1 (meteors_stay_in_flight grey_hex grey_hsl _ 0 m
                  grey_tree_fairly_reachable Hm)).
Defined.

Lemma grey_tree_array_sizes :
  treeCount (fst (constructor_ grey_hex grey_hsl halves)) = Z.to_nat 20000.
Proof.
  exact (proj1 (array_sizes_are_fixed grey_hex grey_hsl _
                  (reach_new grey_hex grey_hsl halves))).
Defined.

Lemma grey_tree_first_meteor_is_drawn :
  exists t' g' m,
    update grey_hex (fst (constructor_ grey_hex grey_hsl halves)) halves
      = Some (t', g') /\
    meteorData (fst (constructor_ grey_hex grey_hsl halves)) !! 0%nat = Some m /\
    meteorPositions t' !! 0%nat = segment (advanced m) !! 0%nat.
Proof.
  destruct (update_spec grey_hex _ halves
              (reachable_well_formed grey_hex grey_hsl _
                 (reach_new grey_hex grey_hsl halves)))
    as (t' & g' & Hrun & _).
  destruct (lookup_lt_is_Some_2
              (meteorData (fst (constructor_ grey_hex grey_hsl halves))) 0)
    as [m Hm].
  { destruct (constructor_full_shape grey_hex grey_hsl halves)
      as (_ & H2 & _ & _ & _ & _ & _ & H8 & _). rewrite H8, H2. lia. }
  exists t', g', m. split; [exact Hrun|]. split; [exact Hm|].
  exact (proj1 (proj1 (meteor_is_drawn_with_its_trail grey_hex grey_hsl _
                         halves t' g' 0 m grey_tree_fairly_reachable Hrun Hm)
                  0%nat ltac:(lia))).
Defined.

Lemma grey_tree_first_meteor_frame :
  exists t' g' m,
    update grey_hex (fst (constructor_ grey_hex grey_hsl halves)) halves
      = Some (t', g') /\
    meteorData (fst (constructor_ grey_hex grey_hsl halves)) !! 0%nat = Some m /\
    meteorPositions t' !! 0%nat = Some (vx (pos m) + vx (velocity m)).
Proof.
  destruct (update_spec grey_hex _ halves
              (reachable_well_formed grey_hex grey_hsl _
                 (reach_new grey_hex grey_hsl halves)))
    as (t' & g' & Hrun & _).
  destruct (lookup_lt_is_Some_2
              (meteorData (fst (constructor_ grey_hex grey_hsl halves))) 0)
    as [m Hm].
  { destruct (constructor_full_shape grey_hex grey_hsl halves)
      as (_ & H2 & _ & _ & _ & _ & _ & H8 & _). rewrite H8, H2. lia. }
  exists t', g', m. split; [exact Hrun|]. split; [exact Hm|].
  exact (proj1 (meteor_respawns_on_exit grey_hex grey_hsl _ halves t' g' 0 m
                  grey_tree_fairly_reachable halves_unit_draws Hrun Hm)).
Defined.

Lemma one_particle_turns_a_bounded_angle :
  exists tn gn yn,
    updates grey_hex 5 (rotate 1 one_particle) halves = Some (tn, gn) /\
    orientation tn = Some yn /\
    Rabs (yn - 0) <= 1.25.
Proof.
  destruct (one_gesture_turns_a_bounded_angle grey_hex one_particle halves
              1 0 5 one_particle_well_formed eq_refl)
    as (tn & gn & yn & Hrun & Ho & _ & _ & Hb).
  exists tn, gn, yn. split; [exact Hrun|]. split; [exact Ho|].
  apply Hb. lra.
Defined.

Lemma one_particle_shader_time :
  exists tn gn,
    updates grey_hex 3 one_particle halves = Some (tn, gn) /\
    uTime tn = uTime one_particle + INR 3 * 0.01.
Proof.
  exact (shader_time_advances grey_hex one_particle halves 3
           one_particle_well_formed).
Defined.

Lemma grey_tree_stays_at_rest :
  exists tn gn,
    updates grey_hex 2 (fst (constructor_ grey_hex grey_hsl halves)) halves
      = Some (tn, gn) /\
    treePositions tn
      = treePositions (fst (constructor_ grey_hex grey_hsl halves)).
Proof.
  destruct (constructor_spec grey_hex grey_hsl halves) as (Hwf & _ & Heq & _).
  destruct (tree_at_rest_stays_at_rest grey_hex _ halves 2 Hwf Heq)
    as (tn & gn & Hrun & Hp & _).
  exists tn, gn. split; assumption.
Defined.

Lemma grey_tree_first_particle_dress :
  exists size opacity,
    treeSizes (fst (constructor_ grey_hex grey_hsl halves)) !! 0%nat = Some size /\
    treeOpacities (fst (constructor_ grey_hex grey_hsl halves)) !! 0%nat
      = Some opacity /\
    roughly_dressed trunk size opacity.
Proof.
  exact (particles_keep_their_dress grey_hex grey_hsl _ 0
           grey_tree_fairly_reachable ltac:(lia)).
Defined.

Lemma one_particle_disperse_draws_three :
  snd (disperse one_particle halves) = mkRNG (draws halves) (cursor halves + 3 * 1).
Proof.
  exact (proj2 (transitions_draw_a_fixed_number one_particle halves) eq_refl).
Defined.
